(** * The ninep protocol server: listener, connection loop and dispatcher

  A shallow embedding of [NetListener.Serve], [conn.serve] and [Dispatch]
  of package [protocol], with the properties of the connection runtime
  and of the pre-Tversion gate proved over it.

  Conventions.  A Go [byte] is a [Byte.byte]; a [bytes.Buffer] is the list
  of its unread bytes; fixed-width integers are [Z] with the wrap-around
  written out; a [*Server] or [*conn] receiver is a record that each
  operation takes and returns.  Spans and log lines have no effect on the
  state and are kept only as the [read]/[write] events of a request. *)

From Stdlib Require Import ZArith List String Bool Lia.
From Stdlib Require Import Strings.Byte.
From Stdlib Require Import ListSet.
Import ListNotations.

Local Open Scope Z_scope.

(* ------------------------------------------------------------------ *)
(** ** Machine integers and bytes *)

Module Mach.

(** [int64(b)], [uint16(b)] of a byte [b]: its value, 0..255. *)
Definition u8 (b : byte) : Z := Z.of_N (Byte.to_N b).

(** [byte(z)], [uint8(z)]: the low eight bits. *)
Definition byte_of_Z (z : Z) : byte :=
  match Byte.of_N (Z.to_N (z mod 256)) with
  | Some b => b
  | None => Byte.x00
  end.

Definition wrap16 (z : Z) : Z := z mod 2 ^ 16.
Definition wrap64 (z : Z) : Z := z mod 2 ^ 64.

(** Two's-complement reading of a 64-bit result ([int64], [time.Duration]). *)
Definition wrap_int64 (z : Z) : Z := (z + 2 ^ 63) mod 2 ^ 64 - 2 ^ 63.

End Mach.
Import Mach.

(* ------------------------------------------------------------------ *)
(** ** Wire constants and the Rerror packet *)

Module Wire.

(** [type MType uint8]: the value of the type byte. *)
Definition MType := Z.
(** [type Tag uint16]. *)
Definition Tag := Z.

(** Modelled from the spec: the message-type constants of package
    [protocol] (their declaration is not among the sources); values as
    listed in section 4.1. *)
Definition Tversion : MType := 100.
Definition Rversion : MType := 101.
Definition Tauth    : MType := 102.
Definition Rauth    : MType := 103.
Definition Tattach  : MType := 104.
Definition Rattach  : MType := 105.
Definition Terror   : MType := 106.
Definition Rerror   : MType := 107.
Definition Tflush   : MType := 108.
Definition Rflush   : MType := 109.
Definition Twalk    : MType := 110.
Definition Rwalk    : MType := 111.
Definition Topen    : MType := 112.
Definition Ropen    : MType := 113.
Definition Tcreate  : MType := 114.
Definition Rcreate  : MType := 115.
Definition Tread    : MType := 116.
Definition Rread    : MType := 117.
Definition Twrite   : MType := 118.
Definition Rwrite   : MType := 119.
Definition Tclunk   : MType := 120.
Definition Rclunk   : MType := 121.
Definition Tremove  : MType := 122.
Definition Rremove  : MType := 123.
Definition Tstat    : MType := 124.
Definition Rstat    : MType := 125.
Definition Twstat   : MType := 126.
Definition Rwstat   : MType := 127.

Definition NOTAG : Tag := 65535.

(** Modelled from the spec: the table [RPCNames] (a [map[MType]string]
    declared outside the sources), value -> name as in section 4.1. *)
Definition RPCNames_table : list (MType * string) :=
  [ (Tversion, "Tversion"); (Rversion, "Rversion");
    (Tauth, "Tauth");       (Rauth, "Rauth");
    (Tattach, "Tattach");   (Rattach, "Rattach");
    (Terror, "Terror");     (Rerror, "Rerror");
    (Tflush, "Tflush");     (Rflush, "Rflush");
    (Twalk, "Twalk");       (Rwalk, "Rwalk");
    (Topen, "Topen");       (Ropen, "Ropen");
    (Tcreate, "Tcreate");   (Rcreate, "Rcreate");
    (Tread, "Tread");       (Rread, "Rread");
    (Twrite, "Twrite");     (Rwrite, "Rwrite");
    (Tclunk, "Tclunk");     (Rclunk, "Rclunk");
    (Tremove, "Tremove");   (Rremove, "Rremove");
    (Tstat, "Tstat");       (Rstat, "Rstat");
    (Twstat, "Twstat");     (Rwstat, "Rwstat") ]%string.

Fixpoint lookup_name (tbl : list (MType * string)) (t : MType) : option string :=
  match tbl with
  | [] => None
  | (k, v) :: tbl' => if Z.eqb k t then Some v else lookup_name tbl' t
  end.

(** [RPCNames[t]]: indexing a Go map gives the zero value, the empty
    string, for a key that is absent. *)
Definition RPCNames (t : MType) : string :=
  match lookup_name RPCNames_table t with
  | Some n => n
  | None => EmptyString
  end.

(** A [bytes.Buffer], as the list of its unread bytes. *)
Definition Buffer := list byte.

(** Little-endian fixed-width integers. *)
Definition le16 (z : Z) : list byte :=
  [byte_of_Z z; byte_of_Z (Z.shiftr z 8)].
Definition le32 (z : Z) : list byte :=
  [byte_of_Z z; byte_of_Z (Z.shiftr z 8);
   byte_of_Z (Z.shiftr z 16); byte_of_Z (Z.shiftr z 24)].

(** Modelled from the spec: [MarshalRerrorPkt(b, t, s)] (generated code,
    not among the sources).  It resets the buffer and writes the frame
    size[4] Rerror[1] tag[2] ename[s], a string being a 16-bit length
    followed by its bytes and [size] counting every byte of the frame. *)
Definition MarshalRerrorPkt (b : Buffer) (t : Tag) (s : string) : Buffer :=
  let e := list_byte_of_string s in
  let len := Z.of_nat (List.length e) in
  le32 (4 + 1 + 2 + 2 + len) ++ [byte_of_Z Rerror] ++ le16 t ++ le16 len ++ e.

(** Modelled from the spec: [ServerError(b, s)] (not among the sources)
    answers the request held in [b] with an Rerror that carries the
    request's tag, the first two bytes of the buffer; with no tag to read
    the buffer is left as it is. *)
Definition ServerError (b : Buffer) (s : string) : Buffer :=
  match b with
  | u0 :: u1 :: _ =>
      MarshalRerrorPkt b (Z.lor (u8 u0) (wrap16 (Z.shiftl (u8 u1) 8))) s
  | _ => b
  end.

(** The decoded form of an Rerror frame, for stating what a reply says. *)
Record RerrorPkt := { r_size : Z; r_tag : Tag; r_ename : string }.

(** Modelled from the spec: the decoder of an Rerror frame (section 4.1):
    it fails when bytes run out, when the type byte is not Rerror, or when
    the frame is not consumed exactly. *)
Definition UnmarshalRerrorPkt (f : list byte) : option RerrorPkt :=
  match f with
  | s0 :: s1 :: s2 :: s3 :: ty :: t0 :: t1 :: n0 :: n1 :: e =>
      let size := u8 s0 + Z.shiftl (u8 s1) 8 + Z.shiftl (u8 s2) 16
                  + Z.shiftl (u8 s3) 24 in
      let len := Z.lor (u8 n0) (Z.shiftl (u8 n1) 8) in
      if (u8 ty =? Rerror) && (len =? Z.of_nat (List.length e))
         && (size =? Z.of_nat (List.length f))
      then Some {| r_size := size;
                   r_tag := Z.lor (u8 t0) (Z.shiftl (u8 t1) 8);
                   r_ename := string_of_list_byte e |}
      else None
  | _ => None
  end.

End Wire.
Import Wire.

(* ------------------------------------------------------------------ *)
(** ** The server and its dispatcher *)

Module Srv.

(** A Go [error]: nil is [None], a non-nil error is its message. *)
Definition error := option string.

(** [type Server struct { NS NineServer; D Dispatcher; Versioned bool }].
    [NS] is the state of the backend behind the [NineServer] interface; the
    field [D] is always [Dispatch] ([newConn], [ServeFromRWC]) and is not
    stored. *)
Record Server (NSt : Type) := mkServer {
  NS : NSt;
  Versioned : bool
}.
Arguments mkServer {NSt} _ _.
Arguments NS {NSt} _.
Arguments Versioned {NSt} _.

(** What a call on a [*Server] leaves behind: the server, the buffer and the
    error returned; or a run-time panic (an index out of range). *)
Inductive outcome (NSt : Type) :=
| Ret (s : Server NSt) (b : Buffer) (err : error)
| Panic.
Arguments Ret {NSt} _ _ _.
Arguments Panic {NSt}.

(** The request handlers [Server.SrvRversion] ... [Server.SrvRwrite].
    Their bodies are generated code outside the sources, so they are the
    interface the dispatcher is written against: each receives the server
    and the buffer holding the request and leaves the server, the buffer
    holding the reply and an error. *)
Class Handlers (NSt : Type) := {
  SrvRversion : Server NSt -> Buffer -> Server NSt * Buffer * error;
  SrvRattach  : Server NSt -> Buffer -> Server NSt * Buffer * error;
  SrvRflush   : Server NSt -> Buffer -> Server NSt * Buffer * error;
  SrvRwalk    : Server NSt -> Buffer -> Server NSt * Buffer * error;
  SrvRopen    : Server NSt -> Buffer -> Server NSt * Buffer * error;
  SrvRcreate  : Server NSt -> Buffer -> Server NSt * Buffer * error;
  SrvRclunk   : Server NSt -> Buffer -> Server NSt * Buffer * error;
  SrvRstat    : Server NSt -> Buffer -> Server NSt * Buffer * error;
  SrvRwstat   : Server NSt -> Buffer -> Server NSt * Buffer * error;
  SrvRremove  : Server NSt -> Buffer -> Server NSt * Buffer * error;
  SrvRread    : Server NSt -> Buffer -> Server NSt * Buffer * error;
  SrvRwrite   : Server NSt -> Buffer -> Server NSt * Buffer * error
}.

(** The handlers in the order of the second [switch] of [Dispatch]. *)
Definition handler_cases {NSt} `{Handlers NSt}
  : list (MType * (Server NSt -> Buffer -> Server NSt * Buffer * error)) :=
  [ (Tversion, SrvRversion); (Tattach, SrvRattach); (Tflush, SrvRflush);
    (Twalk, SrvRwalk);       (Topen, SrvRopen);     (Tcreate, SrvRcreate);
    (Tclunk, SrvRclunk);     (Tstat, SrvRstat);     (Twstat, SrvRwstat);
    (Tremove, SrvRremove);   (Tread, SrvRread);     (Twrite, SrvRwrite) ].

(** [switch t { case k: return h(ctx, b) ... }]: the first case that
    matches, if any. *)
Fixpoint switch_case {A} (cases : list (MType * A)) (t : MType) : option A :=
  match cases with
  | [] => None
  | (k, h) :: cases' => if Z.eqb t k then Some h else switch_case cases' t
  end.

(** The handlers leave [Versioned] alone: it is the dispatcher's field. *)
Definition keeps_Versioned {NSt}
  (f : Server NSt -> Buffer -> Server NSt * Buffer * error) : Prop :=
  forall s b, Versioned (fst (fst (f s b))) = Versioned s.

Definition HandlersKeepVersioned {NSt} (h : Handlers NSt) : Prop :=
  Forall (fun c => keeps_Versioned (snd c)) handler_cases.

Section Dispatcher.

Context {NSt : Type} {h : Handlers NSt}.

Definition tuple_outcome (r : Server NSt * Buffer * error) : outcome NSt :=
  let '(s, b, e) := r in Ret s b e.

(** [func Dispatch(ctx, s *Server, b *bytes.Buffer, t MType) error]. *)
Definition Dispatch (s : Server NSt) (b : Buffer) (t : MType) : outcome NSt :=
  (* switch t { case Tversion: s.Versioned = true; default: the gate } *)
  let gate : outcome NSt + Server NSt :=
    if Z.eqb t Tversion then inr (mkServer (NS s) true)
    else if negb (Versioned s) then
      let m := ("Dispatch: " ++ RPCNames t ++ " not allowed before Tversion")%string in
      match b with
      | d0 :: d1 :: _ =>
          inl (Ret s
                 (MarshalRerrorPkt b (Z.lor (u8 d0) (wrap16 (Z.shiftl (u8 d1) 8))) m)
                 (Some m))
      | _ => inl Panic            (* d[0] or d[1] is out of range *)
      end
    else inr s in
  match gate with
  | inl r => r
  | inr s1 =>
      match switch_case handler_cases t with
      | Some f => tuple_outcome (f s1 b)
      | None =>
          Ret s1
            (ServerError b ("Dispatch: " ++ RPCNames t ++ " not supported")%string)
            None
      end
  end.

End Dispatcher.

End Srv.
Import Srv.

(* ------------------------------------------------------------------ *)
(** ** The byte stream of a connection *)

Module Stream.

(** The error of a [Read] or [Write]: [io.EOF], or any other. *)
Inductive ioerr := EOF | IOError (msg : string).

(** The reading side of the stream, as what the successive [Read] calls will
    find: bytes that have arrived together, or an error.  An error stays
    ahead of the reader; a stream with nothing left is at end of file. *)
Inductive segment := Data (bs : list byte) | Fail (e : ioerr).
Definition reader := list segment.

(** [n, err := r.Read(p)] with [len(p) = k]: one call returns what is
    there, at most [k] bytes, and does not wait for more.  A call returns
    bytes or an error, as the reads of a network connection do. *)
Definition Read (r : reader) (k : nat) : list byte * option ioerr * reader :=
  match r with
  | [] => ([], Some EOF, [])
  | Fail e :: _ => ([], Some e, r)
  | Data bs :: r' =>
      if (List.length bs <=? k)%nat then (bs, None, r')
      else (firstn k bs, None, Data (skipn k bs) :: r')
  end.

(** [io.Copy(b, io.LimitReader(r, n))]: the bytes appended to [b], the
    error returned and the stream left.  The limited reader answers
    [io.EOF] without reading once [n <= 0], and never asks for more than
    [n] bytes; [io.Copy] reads until an error, and returns nil when that
    error is [io.EOF]. *)
Fixpoint CopyLimit (r : reader) (n : Z) : list byte * option ioerr * reader :=
  if n <=? 0 then ([], None, r)
  else
    match r with
    | [] => ([], None, [])
    | Fail EOF :: _ => ([], None, r)
    | Fail e :: _ => ([], Some e, r)
    | Data bs :: r' =>
        if Z.of_nat (List.length bs) <=? n then
          let '(d, e, r2) := CopyLimit r' (n - Z.of_nat (List.length bs)) in
          (bs ++ d, e, r2)
        else
          (firstn (Z.to_nat n) bs, None, Data (skipn (Z.to_nat n) bs) :: r')
    end.

(** The writing side: whether each successive [Write] will fail, and the
    byte strings written so far.  With the script used up, writes succeed. *)
Record writer := mkWriter {
  script : list (option ioerr);
  sent : list Buffer
}.

(** [amt, err := w.Write(p)]. *)
Definition Write (w : writer) (p : Buffer) : writer * option ioerr :=
  match script w with
  | [] => (mkWriter [] (sent w ++ [p]), None)
  | None :: sc => (mkWriter sc (sent w ++ [p]), None)
  | Some e :: sc => (mkWriter sc (sent w), Some e)
  end.

(** What is left to read: a measure that every frame read makes smaller. *)
Fixpoint rd_size (r : reader) : nat :=
  match r with
  | [] => 0
  | Data bs :: r' => S (List.length bs + rd_size r')
  | Fail _ :: r' => rd_size r'
  end.

(** The data the stream holds before its first error. *)
Fixpoint available (r : reader) : list byte :=
  match r with
  | Data bs :: r' => bs ++ available r'
  | _ => []
  end.

End Stream.
Import Stream.

(* ------------------------------------------------------------------ *)
(** ** The connection loop *)

Module Conn.

(** The spans a request leaves: [read] once its frame is in the buffer,
    [write] around the write of its reply.  Both are children of the request
    span, which is tagged with the request id, the tag and the operation. *)
Inductive event :=
| EvRead (reqID : Z) (t : MType) (tag : Tag) (b : Buffer)
| EvWrite (reqID : Z) (reply : Buffer) (err : option ioerr).

(** [type conn struct]: the server, the stream ([io.Reader], [io.Writer],
    [io.Closer]), [dead], [requestCounter], and the finished spans. *)
Record conn (NSt : Type) := mkConn {
  server : Server NSt;
  Reader : reader;
  Writer : writer;
  closed : bool;
  dead : bool;
  requestCounter : Z;
  spans : list event
}.
Arguments mkConn {NSt} _ _ _ _ _ _ _.
Arguments server {NSt} _.
Arguments Reader {NSt} _.
Arguments Writer {NSt} _.
Arguments closed {NSt} _.
Arguments dead {NSt} _.
Arguments requestCounter {NSt} _.
Arguments spans {NSt} _.

(** Why [serve] returned from inside the loop. *)
Inductive stop_reason := HeaderRead | BodyRead | ReplyWrite | DispatchPanic.

Inductive step (NSt : Type) :=
| Continue (c : conn NSt)
| Stop (why : stop_reason) (c : conn NSt).
Arguments Continue {NSt} _.
Arguments Stop {NSt} _ _.

(** The three fields of the 7-byte header, as [serve] computes them. *)
Definition header_size (l0 l1 l2 l3 : byte) : Z :=
  wrap_int64 (u8 l0 + Z.shiftl (u8 l1) 8 + Z.shiftl (u8 l2) 16
              + Z.shiftl (u8 l3) 24).
Definition header_type (l4 : byte) : MType := u8 l4.
Definition header_tag (l5 l6 : byte) : Tag :=
  Z.lor (u8 l5) (wrap16 (Z.shiftl (u8 l6) 8)).

Section Serve.

Context {NSt : Type} {h : Handlers NSt}.

(** [c.dead = true; return], the deferred [c.Close()] being run by [serve]. *)
Definition die (c : conn NSt) : conn NSt :=
  mkConn (server c) (Reader c) (Writer c) (closed c) true
         (requestCounter c) (spans c).

(** The body of the loop [for !c.dead { ... }] of [conn.serve]. *)
Definition serve_iter (c : conn NSt) : step NSt :=
  let reqID := wrap64 (requestCounter c + 1) in
  (* l := make([]byte, 7); n, err := c.Read(l) *)
  let '(l, err, rd1) := Read (Reader c) 7 in
  let c1 := mkConn (server c) rd1 (Writer c) (closed c) (dead c) reqID (spans c) in
  match err, l with
  | None, [l0; l1; l2; l3; l4; l5; l6] =>
      let sz := header_size l0 l1 l2 l3 in
      let t := header_type l4 in
      let tag := header_tag l5 l6 in
      (* b := bytes.NewBuffer(l[5:]); io.Copy(b, io.LimitReader(c.Reader, sz-7)) *)
      let '(body, cerr, rd2) := CopyLimit rd1 (sz - 7) in
      let b := [l5; l6] ++ body in
      let c2 := mkConn (server c) rd2 (Writer c) (closed c) (dead c) reqID (spans c) in
      match cerr with
      | Some _ => Stop BodyRead (die c2)
      | None =>
          let sp1 := spans c ++ [EvRead reqID t tag b] in
          (* c.server.D(ctx, c.server, b, t): an error is only logged *)
          match Dispatch (server c) b t with
          | Panic =>
              Stop DispatchPanic
                   (mkConn (server c) rd2 (Writer c) (closed c) (dead c) reqID sp1)
          | Ret s' b' _ =>
              (* amt, err := c.Write(b.Bytes()) *)
              let '(w', werr) := Write (Writer c) b' in
              let c3 := mkConn s' rd2 w' (closed c) (dead c) reqID
                               (sp1 ++ [EvWrite reqID b' werr]) in
              match werr with
              | Some _ => Stop ReplyWrite (die c3)
              | None => Continue c3
              end
          end
      end
  | _, _ => Stop HeaderRead (die c1)     (* err != nil || n < 7 *)
  end.

(** The loop, for at most [fuel] frames: [None] when the fuel is used up
    with the connection still alive. *)
Fixpoint serve_loop (fuel : nat) (c : conn NSt) : option (conn NSt) :=
  if dead c then Some c
  else
    match fuel with
    | O => None
    | S fuel' =>
        match serve_iter c with
        | Continue c' => serve_loop fuel' c'
        | Stop _ c' => Some c'
        end
    end.

(** [defer c.Close()]. *)
Definition Close (c : conn NSt) : conn NSt :=
  mkConn (server c) (Reader c) (Writer c) true (dead c)
         (requestCounter c) (spans c).

(** [func (c *conn) serve()]. *)
Definition serve (fuel : nat) (c : conn NSt) : option (conn NSt) :=
  option_map Close (serve_loop fuel c).

End Serve.

(** The connection [newConn] and [ServeFromRWC] build around a stream. *)
Definition new_conn {NSt} (ns : NSt) (r : reader) (w : writer) : conn NSt :=
  mkConn (mkServer ns false) r w false false 0 [].

End Conn.
Import Conn.

(* ------------------------------------------------------------------ *)
(** ** The acceptor *)

Module Listener.

(** [time.Duration]: an [int64] count of nanoseconds. *)
Definition Duration := Z.
Definition Millisecond : Duration := 1000000.
Definition Second : Duration := 1000 * Millisecond.

(** An error of [ln.Accept()]: whether it is a [net.Error], and what its
    [Temporary()] answers. *)
Record accept_error := mkAcceptError {
  text : string;
  is_net_Error : bool;
  Temporary : bool
}.

(** [ne, ok := err.(net.Error); ok && ne.Temporary()]. *)
Definition temporary (e : accept_error) : bool :=
  is_net_Error e && Temporary e.

(** What one call of [ln.Accept()] returns. *)
Inductive accepted (C : Type) :=
| Accepted (rwc : C)
| AcceptFailed (e : accept_error).
Arguments Accepted {C} _.
Arguments AcceptFailed {C} _.

(** What [Serve] does besides looping: [time.Sleep(d)], the goroutine
    [go c.serve()] started by [l.Accept], and the deferred [ln.Close()]. *)
Inductive action (C : Type) :=
| Sleep (d : Duration)
| Spawn (rwc : C)
| CloseListener.
Arguments Sleep {C} _.
Arguments Spawn {C} _.
Arguments CloseListener {C}.

Section Acceptor.

Context {C : Type}.

(** [func (l *NetListener) Accept(conn net.Conn) error]: [newConn] has no
    failing path, so the connection is always served and nil returned. *)
Definition Accept (rwc : C) : action C * option accept_error :=
  (Spawn rwc, None).

(** [tempDelay] before the sleep that follows a temporary error. *)
Definition next_delay (tempDelay : Duration) : Duration :=
  let d := if tempDelay =? 0 then 5 * Millisecond
           else wrap_int64 (tempDelay * 2) in
  if d >? 1 * Second then 1 * Second else d.

(** The loop of [NetListener.Serve] over what the successive [Accept] calls
    return: the actions taken and the error returned, [None] while the loop
    is waiting in [ln.Accept()] with nothing more to come. *)
Fixpoint Serve_loop (accepts : list (accepted C)) (tempDelay : Duration)
  : list (action C) * option accept_error :=
  match accepts with
  | [] => ([], None)
  | AcceptFailed e :: rest =>
      if temporary e then
        let d := next_delay tempDelay in
        let '(acts, r) := Serve_loop rest d in
        (Sleep d :: acts, r)
      else ([CloseListener], Some e)
  | Accepted rwc :: rest =>
      (* tempDelay = 0 *)
      match Accept rwc with
      | (a, Some e) => ([a; CloseListener], Some e)
      | (a, None) =>
          let '(acts, r) := Serve_loop rest 0 in
          (a :: acts, r)
      end
  end.

(** [func (l *NetListener) Serve(ln net.Listener) error]:
    [var tempDelay time.Duration] starts at zero. *)
Definition Serve (accepts : list (accepted C)) :=
  Serve_loop accepts 0.

(** The delay the spec gives the [k]-th consecutive failure, counted from 0:
    5 ms doubled [k] times, and at most one second. *)
Definition backoff (k : nat) : Duration :=
  Z.min (5 * Millisecond * 2 ^ Z.of_nat k) Second.

End Acceptor.

End Listener.

(* ------------------------------------------------------------------ *)
(** ** A backend for running the dispatcher *)

Module Fixture.

(** The ceiling the fixture puts on [msize]. *)
Definition serverMax : Z := 8192.

(** Modelled from the spec: the Rversion frame, size[4] Rversion[1] tag[2]
    msize[4] version[s]. *)
Definition MarshalRversionPkt (t : Tag) (msize : Z) (version : string) : Buffer :=
  let v := list_byte_of_string version in
  let len := Z.of_nat (List.length v) in
  le32 (4 + 1 + 2 + 4 + 2 + len) ++ [byte_of_Z Rversion] ++ le16 t
       ++ le32 msize ++ le16 len ++ v.

(** Modelled from the spec: version negotiation (section 4.3).  The request
    in the buffer is tag[2] msize[4] version[s]; when its bytes run out the
    handler fails with MalformedFrame and leaves the buffer.  Otherwise the
    server picks [min(clientMsize, serverMax)], answers "9P2000" to a
    version that begins with it and "unknown" to any other, and keeps the
    negotiated msize as the state of the backend. *)
Definition version_only (s : Server Z) (b : Buffer) : Server Z * Buffer * error :=
  match b with
  | t0 :: t1 :: m0 :: m1 :: m2 :: m3 :: n0 :: n1 :: v =>
      let tag := Z.lor (u8 t0) (Z.shiftl (u8 t1) 8) in
      let msize := u8 m0 + Z.shiftl (u8 m1) 8 + Z.shiftl (u8 m2) 16
                   + Z.shiftl (u8 m3) 24 in
      let len := Z.lor (u8 n0) (Z.shiftl (u8 n1) 8) in
      if len =? Z.of_nat (List.length v) then
        let ms := Z.min msize serverMax in
        let ver := if String.prefix "9P2000" (string_of_list_byte v)
                   then "9P2000"%string else "unknown"%string in
        (mkServer ms (Versioned s), MarshalRversionPkt tag ms ver, None)
      else (s, b, Some "MalformedFrame"%string)
  | _ => (s, b, Some "MalformedFrame"%string)
  end.

(** Modelled from the spec: Flush(oldtag) (section 4.3).  Flushing a tag
    that is not pending is a no-op success, and with one request served at
    a time no tag is pending when a Tflush arrives: the answer is the frame
    size[4] Rflush[1] tag[2] on the tag of the Tflush. *)
Definition flush_noop (s : Server Z) (b : Buffer) : Server Z * Buffer * error :=
  match b with
  | t0 :: t1 :: _ => (s, le32 7 ++ [byte_of_Z Rflush; t0; t1], None)
  | _ => (s, b, Some "MalformedFrame"%string)
  end.

(** Every other operation is declined with an Rerror on the request's tag. *)
Definition declined (s : Server Z) (b : Buffer) : Server Z * Buffer * error :=
  (s, ServerError b "permission denied", None).

#[export] Instance handlers : Handlers Z := {|
  SrvRversion := version_only;
  SrvRattach := declined;
  SrvRflush := flush_noop;
  SrvRwalk := declined;
  SrvRopen := declined;
  SrvRcreate := declined;
  SrvRclunk := declined;
  SrvRstat := declined;
  SrvRwstat := declined;
  SrvRremove := declined;
  SrvRread := declined;
  SrvRwrite := declined
|}.

End Fixture.

(* ------------------------------------------------------------------ *)
(** ** Runs and scenarios *)

Module Run.

Section Sequences.

Context {NSt : Type} {h : Handlers NSt}.

(** Successive calls of [Dispatch] on one server: what each call leaves,
    every call starting from the server the one before left.  A panic ends
    the run. *)
Fixpoint Dispatch_seq (s : Server NSt) (reqs : list (Buffer * MType))
  : list (outcome NSt) :=
  match reqs with
  | [] => []
  | (b, t) :: reqs' =>
      match Dispatch s b t with
      | Ret s' b' e => Ret s' b' e :: Dispatch_seq s' reqs'
      | Panic => [Panic]
      end
  end.

(** The connection after [n] whole turns of the loop of [serve], each of
    which went on to the next frame; [None] when one of them returned. *)
Fixpoint after_turns (n : nat) (c : conn NSt) : option (conn NSt) :=
  match n with
  | O => Some c
  | S n' =>
      match serve_iter c with
      | Continue c' => after_turns n' c'
      | Stop _ _ => None
      end
  end.

(** The three conditions under which a turn of the loop returns.
    [header_fails]: [err != nil || n < 7] at the read of the header. *)
Definition header_fails (c : conn NSt) : Prop :=
  let '(l, err, _) := Read (Reader c) 7 in
  err <> None \/ (List.length l < 7)%nat.

(** [body_fails]: the header was read and [io.Copy] returned an error. *)
Definition body_fails (c : conn NSt) : Prop :=
  exists l0 l1 l2 l3 l4 l5 l6 rd1 body e rd2,
    Read (Reader c) 7 = ([l0; l1; l2; l3; l4; l5; l6], None, rd1)
    /\ CopyLimit rd1 (header_size l0 l1 l2 l3 - 7) = (body, Some e, rd2).

(** [write_fails]: the frame was read and dispatched, and [c.Write]
    returned an error. *)
Definition write_fails (c : conn NSt) : Prop :=
  exists l0 l1 l2 l3 l4 l5 l6 rd1 body rd2 s' b' derr w' e,
    Read (Reader c) 7 = ([l0; l1; l2; l3; l4; l5; l6], None, rd1)
    /\ CopyLimit rd1 (header_size l0 l1 l2 l3 - 7) = (body, None, rd2)
    /\ Dispatch (server c) ([l5; l6] ++ body) (header_type l4) = Ret s' b' derr
    /\ Write (Writer c) b' = (w', Some e).

End Sequences.

(** The shape of the spans of a connection whose last request id was [lo]:
    turn after turn, the read of a frame and then the write of its reply,
    under the next request id; a write that failed is the last event. *)
Inductive turns : Z -> list event -> Prop :=
| turns_nil (lo : Z) : turns lo []
| turns_last (lo : Z) (t : MType) (tag : Tag) (b reply : Buffer) (e : ioerr) :
    turns lo [EvRead (lo + 1) t tag b; EvWrite (lo + 1) reply (Some e)]
| turns_cons (lo : Z) (t : MType) (tag : Tag) (b reply : Buffer)
    (evs : list event) :
    turns (lo + 1) evs ->
    turns lo (EvRead (lo + 1) t tag b :: EvWrite (lo + 1) reply None :: evs).


(** The request id of an event. *)
Definition event_id (ev : event) : Z :=
  match ev with
  | EvRead id _ _ _ => id
  | EvWrite id _ _ => id
  end.

(** The types with a case in the second [switch] of [Dispatch]. *)
Definition handled : list MType :=
  [Tversion; Tattach; Tflush; Twalk; Topen; Tcreate;
   Tclunk; Tstat; Twstat; Tremove; Tread; Twrite].

(** Scenario 2 of the spec, the frame
    Tattach{tag=1, fid=0, afid=NOFID, uname="u", aname=""}. *)
Definition Tattach_frame : list byte :=
  le32 20 ++ [byte_of_Z Tattach] ++ le16 1
       ++ le32 0 ++ le32 4294967295
       ++ le16 1 ++ list_byte_of_string "u" ++ le16 0.

(** Tauth{tag=2, afid=0, uname="u", aname=""}: a T-message with no case
    in the second [switch]. *)
Definition Tauth_frame : list byte :=
  le32 16 ++ [byte_of_Z Tauth] ++ le16 2
       ++ le32 0 ++ le16 1 ++ list_byte_of_string "u" ++ le16 0.

(** Scenario 6: Tread{tag=5, fid=1, offset=0, count=10} and then
    Tflush{tag=6, oldtag=5}. *)
Definition Tread_frame : list byte :=
  le32 23 ++ [byte_of_Z Tread] ++ le16 5
       ++ le32 1 ++ le32 0 ++ le32 0 ++ le32 10.
Definition Tflush_frame : list byte :=
  le32 9 ++ [byte_of_Z Tflush] ++ le16 6 ++ le16 5.

(** Scenario 1, Tversion{tag=NOTAG, msize, version="9P2000"}. *)
Definition Tversion_frame (msize : Z) : list byte :=
  le32 19 ++ [byte_of_Z Tversion] ++ le16 NOTAG
       ++ le32 msize ++ le16 6 ++ list_byte_of_string "9P2000".

(** A connection of the fixture that has just been accepted, with [input]
    arriving as one piece and a writer that does not fail. *)
Definition fresh (input : list byte) : conn Z :=
  new_conn 0 [Data input] (mkWriter [] []).

(** The same connection once a Tversion has negotiated [msize]. *)
Definition versioned (msize : Z) (input : list byte) : conn Z :=
  mkConn (mkServer msize true) [Data input] (mkWriter [] []) false false 1 [].

(** What a run of [serve] leaves for inspection: the state of the backend,
    the byte strings written, and the request ids of the spans. *)
Definition summary (r : option (conn Z)) : option (Z * list Buffer * list Z) :=
  option_map (fun c => (NS (server c), sent (Writer c), map event_id (spans c))) r.

End Run.
Import Run.

(* ------------------------------------------------------------------ *)
(** ** Whole frames on the wire *)

Module Frames.

(** A frame as a client sends it: the type byte, the two tag bytes and the
    body; the size field is computed from the body. *)
Record frame := mkFrame {
  f_type : byte;
  f_tag0 : byte;
  f_tag1 : byte;
  f_body : list byte
}.

Definition frame_size (f : frame) : Z := 7 + Z.of_nat (List.length (f_body f)).

(** size[4] type[1] tag[2] body. *)
Definition encode (f : frame) : list byte :=
  le32 (frame_size f) ++ [f_type f; f_tag0 f; f_tag1 f] ++ f_body f.

(** What [serve] hands to the dispatcher for the frame: the buffer that
    starts at the tag, and the type. *)
Definition request (f : frame) : Buffer * MType :=
  ([f_tag0 f; f_tag1 f] ++ f_body f, header_type (f_type f)).

(** The buffers a run of calls leaves, in order. *)
Definition replies {NSt} (outs : list (outcome NSt)) : list Buffer :=
  flat_map (fun o => match o with Ret _ b _ => [b] | Panic => [] end) outs.

(** The server the last call of a run leaves. *)
Definition final_server {NSt} (s : Server NSt) (outs : list (outcome NSt))
  : Server NSt :=
  fold_left (fun acc o => match o with Ret s' _ _ => s' | Panic => acc end)
            outs s.

(** What the gate of [Dispatch] answers to a request, whatever the
    handlers: the Rerror on the request's tag, the server as it is. *)
Definition gate_outcome {NSt} (s : Server NSt) (req : Buffer * MType)
  : outcome NSt :=
  let '(b, t) := req in
  let m := ("Dispatch: " ++ RPCNames t ++ " not allowed before Tversion")%string in
  match b with
  | d0 :: d1 :: _ => Ret s (MarshalRerrorPkt b (header_tag d0 d1) m) (Some m)
  | _ => Panic
  end.

(** The connection with another state of the reading side. *)
Definition with_Reader {NSt} (c : conn NSt) (r : reader) : conn NSt :=
  mkConn (server c) r (Writer c) (closed c) (dead c) (requestCounter c)
         (spans c).

(** Two outcomes of a turn that differ at most in how the bytes still to
    read are cut into pieces. *)
Definition same_turn {NSt} (x y : step NSt) : Prop :=
  match x, y with
  | Continue a, Continue b =>
      b = with_Reader a (Reader b)
      /\ available (Reader a) = available (Reader b)
  | Stop w a, Stop w' b =>
      w = w' /\ b = with_Reader a (Reader b)
      /\ available (Reader a) = available (Reader b)
  | _, _ => False
  end.

(** The stream holds [bs] in one piece, or nothing at all. *)
Definition holds (r : reader) (bs : list byte) : Prop :=
  r = [Data bs] \/ (bs = [] /\ r = []).

(** Scenario 3 and 5 of the spec as bytes on the wire: a Twalk and a
    Tclunk, with tags 2 and 3. *)
Definition Twalk_example : frame :=
  mkFrame (byte_of_Z Twalk) Byte.x02 Byte.x00
          (le32 0 ++ le32 1 ++ le16 0).
Definition Tclunk_example : frame :=
  mkFrame (byte_of_Z Tclunk) Byte.x03 Byte.x00 (le32 1).

End Frames.

(* ------------------------------------------------------------------ *)
(** ** The listener: options, tracked listeners, shutdown *)

Module Manage.

Import Listener.

(** A [net.Listener], compared by identity as the keys of a Go map are. *)
Definition ListenerId := nat.

(** The function in [Trace]: [log.Printf], or another one. *)
Inductive Tracer := LogPrintf | TraceFn (name : string).

(** [l.tracer]: the global opentracing tracer, or the no-op one. *)
Inductive TracerImpl := GlobalTracer | NoopTracer.

(** [type NetListener struct]; the mutex has no state of its own here.
    [listeners] is a Go map used as a set: [None] is the nil map. *)
Record NetListener (NSt : Type) := mkNetListener {
  nsCreator : unit -> NSt;
  Addr : string;
  Trace : option Tracer;
  listeners : option (set ListenerId);
  tracer : TracerImpl
}.
Arguments mkNetListener {NSt} _ _ _ _ _.
Arguments nsCreator {NSt} _.
Arguments Addr {NSt} _.
Arguments Trace {NSt} _.
Arguments listeners {NSt} _.
Arguments tracer {NSt} _.

(** [type NetListenerOpt func(l *NetListener) error]: what the option leaves
    of the listener, and the error it returns. *)
Definition NetListenerOpt (NSt : Type) : Type :=
  NetListener NSt -> NetListener NSt * error.

(** The loop [for _, o := range opts] of [NewNetListener]. *)
Fixpoint apply_opts {NSt} (l : NetListener NSt) (opts : list (NetListenerOpt NSt))
  : NetListener NSt + string :=
  match opts with
  | [] => inl l
  | o :: opts' =>
      match o l with
      | (_, Some err) => inr err               (* return nil, err *)
      | (l', None) => apply_opts l' opts'
      end
  end.

(** [func NewNetListener(nsCreator NsCreator, opts ...NetListenerOpt)];
    [registered] is [opentracing.IsGlobalTracerRegistered()]. *)
Definition NewNetListener {NSt} (registered : bool) (ns : unit -> NSt)
    (opts : list (NetListenerOpt NSt)) : NetListener NSt + string :=
  apply_opts
    (mkNetListener ns EmptyString None None
       (if registered then GlobalTracer else NoopTracer))
    opts.

Definition set_Trace {NSt} (l : NetListener NSt) (tr : option Tracer)
  : NetListener NSt :=
  mkNetListener (nsCreator l) (Addr l) tr (listeners l) (tracer l).

Definition set_listeners {NSt} (l : NetListener NSt)
    (m : option (set ListenerId)) : NetListener NSt :=
  mkNetListener (nsCreator l) (Addr l) (Trace l) m (tracer l).

(** The option that [main] of ufs and of centre passes:
    [l.Trace = nil; if *debug > 1 { l.Trace = log.Printf }; return nil]. *)
Definition trace_opt {NSt} (debug : Z) : NetListenerOpt NSt :=
  fun l =>
    let l1 := set_Trace l None in
    let l2 := if debug >? 1 then set_Trace l1 (Some LogPrintf) else l1 in
    (l2, None).

(** The listeners that are tracked: none in the nil map. *)
Definition tracked {NSt} (l : NetListener NSt) : list ListenerId :=
  match listeners l with
  | None => []
  | Some m => m
  end.

(** An argument of a log line. *)
Inductive logarg :=
| ArgError (e : accept_error)
| ArgDuration (d : Duration).

(** A call of the function in [Trace]: the function, the format, the
    arguments. *)
Definition logline : Type := Tracer * string * list logarg.

(** [func (l *NetListener) logf(format string, args ...interface{})]. *)
Definition logf {NSt} (l : NetListener NSt) (format : string)
    (args : list logarg) : list logline :=
  match Trace l with
  | Some tr => [(tr, format, args)]
  | None => []
  end.

(** [func (l *NetListener) trackNetListener(ln net.Listener, add bool)]. *)
Definition trackNetListener {NSt} (l : NetListener NSt) (ln : ListenerId)
    (add : bool) : NetListener NSt :=
  (* if l.listeners == nil { l.listeners = make(...) } *)
  let m := match listeners l with
           | None => empty_set ListenerId
           | Some m => m
           end in
  if add then set_listeners l (Some (set_add Nat.eq_dec ln m))
  else set_listeners l (Some (set_remove Nat.eq_dec ln m)).

(** The loop of [closeNetListenersLocked] over the keys in the order the
    [range] visits them: the map left, the error kept and the listeners
    closed so far. *)
Fixpoint close_each (Close : ListenerId -> error) (order : list ListenerId)
    (m : set ListenerId) (err : error) (closed : list ListenerId)
  : set ListenerId * error * list ListenerId :=
  match order with
  | [] => (m, err, closed)
  | ln :: order' =>
      let cerr := Close ln in
      let err' := match cerr, err with
                  | Some e, None => Some e     (* cerr != nil && err == nil *)
                  | _, _ => err
                  end in
      close_each Close order' (set_remove Nat.eq_dec ln m) err' (closed ++ [ln])
  end.

(** [func (l *NetListener) closeNetListenersLocked() error].  The order in
    which a [range] visits a map is not fixed: [order] is that order, and
    [Close] what each [ln.Close()] returns.  A [range] over the nil map
    visits nothing. *)
Definition closeNetListenersLocked {NSt} (Close : ListenerId -> error)
    (order : list ListenerId) (l : NetListener NSt)
  : NetListener NSt * error * list ListenerId :=
  match listeners l with
  | None => (l, None, [])
  | Some m =>
      let '(m', err, closed) := close_each Close order m None [] in
      (set_listeners l (Some m'), err, closed)
  end.

(** [func (l *NetListener) Shutdown() error]. *)
Definition Shutdown {NSt} (Close : ListenerId -> error)
    (order : list ListenerId) (l : NetListener NSt)
  : NetListener NSt * error * list ListenerId :=
  closeNetListenersLocked Close order l.

(** The deferred calls of [Serve], run when it returns, on the listener as
    the other goroutines have left it by then:
    [l.trackNetListener(ln, false)] and then [ln.Close()], whose error is
    dropped.  The listeners closed are listed as for [Shutdown]. *)
Definition Serve_return {NSt} (l : NetListener NSt) (ln : ListenerId)
  : NetListener NSt * list ListenerId :=
  (trackNetListener l ln false, [ln]).

Section Serving.

Context {NSt C : Type}.

(** The loop of [NetListener.Serve] with its log lines: the actions, the
    lines logged through [l.logf], and the error returned. *)
Fixpoint Serve_body (l : NetListener NSt) (accepts : list (accepted C))
    (tempDelay : Duration)
  : list (action C) * list logline * option accept_error :=
  match accepts with
  | [] => ([], [], None)
  | AcceptFailed e :: rest =>
      if temporary e then
        let d := next_delay tempDelay in
        let line := logf l "ufs: Accept error: %v; retrying in %v"
                         [ArgError e; ArgDuration d] in
        let '(acts, logs, r) := Serve_body l rest d in
        (Sleep d :: acts, line ++ logs, r)
      else ([], [], Some e)
  | Accepted rwc :: rest =>
      match Accept rwc with
      | (a, Some e) => ([a], [], Some e)
      | (a, None) =>
          let '(acts, logs, r) := Serve_body l rest 0 in
          (a :: acts, logs, r)
      end
  end.

(** [func (l *NetListener) Serve(ln net.Listener) error] run on its own,
    with no [Shutdown] and no other [Serve] on [l] meanwhile, and with what
    its deferred calls do when it returns: [l.trackNetListener(ln, false)]
    and then [ln.Close()].  For a [Shutdown] that runs while [Serve] waits,
    see [Serve_return]. *)
Definition Serve_tracked (l : NetListener NSt) (ln : ListenerId)
    (accepts : list (accepted C))
  : NetListener NSt * list (action C) * list logline * option accept_error :=
  let l1 := trackNetListener l ln true in
  let '(acts, logs, r) := Serve_body l1 accepts 0 in
  match r with
  | None => (l1, acts, logs, None)
  | Some e =>
      (trackNetListener l1 ln false, acts ++ [CloseListener], logs, Some e)
  end.


Definition sleeps (acts : list (action C)) : list Duration :=
  flat_map (fun a => match a with Sleep d => [d] | _ => [] end) acts.


(** The delays that the log lines announce. *)
Definition logged_delays (logs : list logline) : list Duration :=
  flat_map
    (fun line =>
       flat_map (fun a => match a with ArgDuration d => [d] | _ => [] end)
                (snd line))
    logs.


End Serving.

End Manage.

(* ------------------------------------------------------------------ *)
(** ** centre: the hosts file *)

Module Centre.

(** What [lookupIP] takes from the libraries and the system: [net.IP] and
    its [String], [strings.Fields], [strings.ToLower], [net.ParseIP] (nil
    is [None]), [net.LookupIP], [net.LookupAddr], and [os.Open] with the
    lines the [bufio.Scanner] then yields. *)
Class Env := {
  IP : Type;
  IP_String : IP -> string;
  Fields : string -> list string;
  ToLower : string -> string;
  ParseIP : string -> option IP;
  LookupIP : string -> list IP + string;
  LookupAddr : string -> list string * error;
  Open : string -> list string + string
}.

Section LookupIP.

Context {env : Env}.

(** The loop [for _, fld := range fields[1:]]: the hostnames gathered
    when a field equals [addr] up to case, [None] when none does. *)
Fixpoint match_fields (addr : string) (flds hostnames : list string)
  : option (list string) :=
  match flds with
  | [] => None
  | fld :: flds' =>
      if String.eqb (ToLower fld) (ToLower addr) then Some hostnames
      else match_fields addr flds' (hostnames ++ [fld])
  end.

(** The loop [for scan.Scan()] over the lines of the hosts file. *)
Fixpoint scan_lines (addr : string) (lines : list string)
  : option (option IP * list string) :=
  match lines with
  | [] => None
  | line :: lines' =>
      match Fields line with
      | f0 :: f1 :: fs =>
          if String.prefix "#" f0 then scan_lines addr lines'
          else
            match match_fields addr (f1 :: fs) [] with
            | Some hostnames => Some (ParseIP f0, hostnames)
            | None => scan_lines addr lines'
            end
      | _ => scan_lines addr lines'            (* len(fields) < 2 *)
      end
  end.

(** The regular lookup that ends [lookupIP]. *)
Definition resolve (addr : string) : option IP * list string * error :=
  match LookupIP addr with
  | inr err => (None, [], Some err)
  | inl [] => (None, [], Some "No IP found"%string)
  | inl (ip :: _) =>
      let '(names, err) := LookupAddr (IP_String ip) in
      (Some ip, names, err)
  end.

(** [func lookupIP(hostFile string, addr string) (net.IP, []string, error)]. *)
Definition lookupIP (hostFile addr : string) : option IP * list string * error :=
  if String.eqb hostFile EmptyString then resolve addr
  else
    match Open hostFile with
    | inr err => (None, [], Some err)
    | inl lines =>
        match scan_lines addr lines with
        | Some (ip, hostnames) => (ip, hostnames, None)
        | None => resolve addr
        end
    end.

(** A field that is not [addr], up to case. *)
Definition other_name (addr fld : string) : Prop :=
  String.eqb (ToLower fld) (ToLower addr) = false.

(** A line of the hosts file that the loop passes over: fewer than two
    fields, a first field that begins with "#", or no field after the
    first that equals [addr] up to case. *)
Definition passed_over (addr line : string) : Prop :=
  match Fields line with
  | f0 :: f1 :: fs =>
      String.prefix "#" f0 = true \/ Forall (other_name addr) (f1 :: fs)
  | _ => True
  end.

End LookupIP.

(** A hosts file of three lines and a resolver that knows nobody. *)
Definition example_env : Env := {|
  IP := string;
  IP_String := fun ip => ip;
  Fields := fun line =>
    if String.eqb line "# hosts" then ["#"; "hosts"]
    else if String.eqb line "10.0.0.9 fs u00:11"
         then ["10.0.0.9"; "fs"; "u00:11"]
    else if String.eqb line "10.0.0.1 boot Centre www"
         then ["10.0.0.1"; "boot"; "Centre"; "www"]
    else [];
  ToLower := fun s => if String.eqb s "Centre" then "centre" else s;
  ParseIP := fun s => Some s;
  LookupIP := fun _ => inr "no such host";
  LookupAddr := fun _ => ([], None);
  Open := fun _ =>
    inl ["# hosts"; "10.0.0.9 fs u00:11"; "10.0.0.1 boot Centre www"]
|}%string.

End Centre.

(* ================================================================== *)
(** * Properties *)

(* ------------------------------------------------------------------ *)
(** ** Bytes and little-endian integers *)

Module MachFacts.

Lemma u8_range (b : byte) : 0 <= u8 b < 256.
Proof.
  unfold u8. pose proof (Byte.to_N_bounded b). lia.
Qed.

Lemma u8_byte_of_Z (z : Z) : u8 (byte_of_Z z) = z mod 256.
Proof.
  unfold u8, byte_of_Z.
  assert (Hr : 0 <= z mod 256 < 256) by (apply Z.mod_pos_bound; lia).
  destruct (Byte.of_N (Z.to_N (z mod 256))) as [b|] eqn:E.
  - apply Byte.to_of_N in E. rewrite E. lia.
  - apply Byte.of_N_None_iff in E. lia.
Qed.

Lemma byte_of_Z_u8 (b : byte) : byte_of_Z (u8 b) = b.
Proof.
  unfold byte_of_Z. rewrite Z.mod_small by apply u8_range.
  unfold u8. rewrite N2Z.id, Byte.of_to_N. reflexivity.
Qed.

Lemma wrap_int64_small (z : Z) : - 2 ^ 63 <= z < 2 ^ 63 -> wrap_int64 z = z.
Proof.
  intros H. unfold wrap_int64. rewrite Z.mod_small; lia.
Qed.

(** A low byte and a value shifted past it share no bit: [|] is [+]. *)
Lemma lor_shiftl8 (a b : Z) :
  0 <= a < 256 -> 0 <= b -> Z.lor a (Z.shiftl b 8) = a + 256 * b.
Proof.
  intros Ha Hb.
  assert (Hland : Z.land a (Z.shiftl b 8) = 0).
  { apply Z.bits_inj'. intros n Hn.
    rewrite Z.land_spec, Z.bits_0.
    destruct (Z.lt_ge_cases n 8) as [Hlt | Hge].
    - rewrite (Z.shiftl_spec_low b 8 n Hlt). apply andb_false_r.
    - replace a with (a mod 2 ^ 8) by (apply Z.mod_small; lia).
      rewrite Z.mod_pow2_bits_high by lia. reflexivity. }
  rewrite <- Z.lxor_lor by exact Hland.
  rewrite <- Z.add_nocarry_lxor by exact Hland.
  rewrite Z.shiftl_mul_pow2 by lia. lia.
Qed.

Lemma header_tag_value (l5 l6 : byte) :
  header_tag l5 l6 = u8 l5 + 256 * u8 l6.
Proof.
  unfold header_tag, wrap16.
  pose proof (u8_range l5). pose proof (u8_range l6).
  rewrite Z.shiftl_mul_pow2 by lia.
  rewrite Z.mod_small by lia.
  rewrite <- Z.shiftl_mul_pow2 by lia.
  apply lor_shiftl8; lia.
Qed.

Lemma header_size_value (l0 l1 l2 l3 : byte) :
  header_size l0 l1 l2 l3
  = u8 l0 + 2 ^ 8 * u8 l1 + 2 ^ 16 * u8 l2 + 2 ^ 24 * u8 l3.
Proof.
  unfold header_size.
  pose proof (u8_range l0). pose proof (u8_range l1).
  pose proof (u8_range l2). pose proof (u8_range l3).
  rewrite !Z.shiftl_mul_pow2 by lia.
  rewrite wrap_int64_small; lia.
Qed.

Lemma header_size_range (l0 l1 l2 l3 : byte) :
  0 <= header_size l0 l1 l2 l3 < 2 ^ 32.
Proof.
  rewrite header_size_value.
  pose proof (u8_range l0). pose proof (u8_range l1).
  pose proof (u8_range l2). pose proof (u8_range l3). lia.
Qed.

(** The two bytes of [le16] and the four of [le32] read back. *)
Lemma le16_read (z : Z) :
  0 <= z < 2 ^ 16 ->
  u8 (byte_of_Z z) + 256 * u8 (byte_of_Z (Z.shiftr z 8)) = z.
Proof.
  intros Hz. rewrite !u8_byte_of_Z, Z.shiftr_div_pow2 by lia.
  change (2 ^ 8) with 256.
  rewrite (Z.mod_small (z / 256)) by
    (split; [apply Z.div_pos; lia | apply Z.div_lt_upper_bound; lia]).
  pose proof (Z.div_mod z 256). lia.
Qed.

Lemma le32_read (z : Z) :
  0 <= z < 2 ^ 32 ->
  u8 (byte_of_Z z) + 2 ^ 8 * u8 (byte_of_Z (Z.shiftr z 8))
  + 2 ^ 16 * u8 (byte_of_Z (Z.shiftr z 16))
  + 2 ^ 24 * u8 (byte_of_Z (Z.shiftr z 24)) = z.
Proof.
  intros Hz. rewrite !u8_byte_of_Z, !Z.shiftr_div_pow2 by lia.
  assert (H1 : z / 2 ^ 8 = 2 ^ 8 * (z / 2 ^ 16) + (z / 2 ^ 8) mod 256).
  { replace (z / 2 ^ 16) with (z / 2 ^ 8 / 2 ^ 8)
      by (rewrite Z.div_div by lia; reflexivity).
    apply (Z.div_mod (z / 2 ^ 8) (2 ^ 8)). lia. }
  assert (H2 : z / 2 ^ 16 = 2 ^ 8 * (z / 2 ^ 24) + (z / 2 ^ 16) mod 256).
  { replace (z / 2 ^ 24) with (z / 2 ^ 16 / 2 ^ 8)
      by (rewrite Z.div_div by lia; reflexivity).
    apply (Z.div_mod (z / 2 ^ 16) (2 ^ 8)). lia. }
  assert (H3 : (z / 2 ^ 24) mod 256 = z / 2 ^ 24).
  { apply Z.mod_small. split; [apply Z.div_pos; lia |].
    apply Z.div_lt_upper_bound; lia. }
  pose proof (Z.div_mod z (2 ^ 8)) as H0.
  change (2 ^ 8) with 256 in *. change (2 ^ 16) with 65536 in *.
  change (2 ^ 24) with 16777216 in *. lia.
Qed.

End MachFacts.
Import MachFacts.

(* ------------------------------------------------------------------ *)
(** ** The Rerror packet and the names of the operations *)

Module WireFacts.

Lemma length_list_byte_of_string (s : string) :
  List.length (list_byte_of_string s) = String.length s.
Proof.
  unfold list_byte_of_string. rewrite length_map.
  induction s as [| a s IH]; simpl; [reflexivity | now rewrite IH].
Qed.

Lemma length_append (s1 s2 : string) :
  String.length (s1 ++ s2) = (String.length s1 + String.length s2)%nat.
Proof.
  induction s1 as [| a s1 IH]; simpl; [reflexivity | now rewrite IH].
Qed.

(** No name of the table is longer than eight bytes. *)
Lemma RPCNames_short (t : MType) : (String.length (RPCNames t) <= 8)%nat.
Proof.
  unfold RPCNames, RPCNames_table, lookup_name.
  repeat match goal with
         | |- context [Z.eqb ?k t] => destruct (Z.eqb k t); [simpl; lia |]
         end.
  simpl; lia.
Qed.

(** An Rerror frame made by [MarshalRerrorPkt] decodes to the tag and the
    message it was made from, and its size field is its length. *)
Lemma Rerror_roundtrip (b : Buffer) (t : Tag) (s : string) :
  0 <= t < 2 ^ 16 ->
  Z.of_nat (String.length s) < 2 ^ 16 ->
  UnmarshalRerrorPkt (MarshalRerrorPkt b t s)
  = Some {| r_size := Z.of_nat (List.length (MarshalRerrorPkt b t s));
            r_tag := t;
            r_ename := s |}.
Proof.
  intros Ht Hs.
  unfold MarshalRerrorPkt, le32, le16.
  remember (list_byte_of_string s) as e eqn:Ee.
  assert (He : List.length e = String.length s)
    by (subst e; apply length_list_byte_of_string).
  set (len := Z.of_nat (List.length e)).
  assert (Hlen : 0 <= len < 2 ^ 16).
  { subst len. rewrite He. lia. }
  cbn [app UnmarshalRerrorPkt].
  rewrite !lor_shiftl8 by
    (try apply u8_range; pose proof (u8_range (byte_of_Z (Z.shiftr t 8)));
     pose proof (u8_range (byte_of_Z (Z.shiftr len 8))); lia).
  rewrite !Z.shiftl_mul_pow2 by lia.
  rewrite (Z.mul_comm _ (2 ^ 8)), (Z.mul_comm _ (2 ^ 16)), (Z.mul_comm _ (2 ^ 24)).
  rewrite le32_read by lia.
  rewrite !le16_read by lia.
  rewrite u8_byte_of_Z.
  replace (Rerror mod 256 =? Rerror) with true by reflexivity.
  cbn [List.length]. subst len.
  rewrite Z.eqb_refl.
  match goal with
  | |- context [?x =? ?y] =>
      replace (x =? y) with true by (symmetry; apply Z.eqb_eq; lia)
  end.
  cbn [andb].
  subst e. rewrite string_of_list_byte_of_string.
  f_equal. f_equal. lia.
Qed.

End WireFacts.
Import WireFacts.

(* ------------------------------------------------------------------ *)
(** ** The dispatcher *)

Module DispatchFacts.

Section WithHandlers.

Context {NSt : Type} {h : Handlers NSt}.

Lemma Dispatch_gate (s : Server NSt) (d0 d1 : byte) (rest : Buffer) (t : MType) :
  t <> Tversion ->
  Versioned s = false ->
  Dispatch s (d0 :: d1 :: rest) t
  = Ret s
        (MarshalRerrorPkt (d0 :: d1 :: rest) (header_tag d0 d1)
           ("Dispatch: " ++ RPCNames t ++ " not allowed before Tversion"))
        (Some ("Dispatch: " ++ RPCNames t ++ " not allowed before Tversion")%string).
Proof.
  intros Ht Hv. unfold Dispatch.
  apply Z.eqb_neq in Ht. rewrite Ht, Hv. reflexivity.
Qed.

Lemma Dispatch_Tversion (s : Server NSt) (b : Buffer) :
  Dispatch s b Tversion = tuple_outcome (SrvRversion (mkServer (NS s) true) b).
Proof. reflexivity. Qed.

(** With the gate open, [Dispatch] is the second [switch]. *)
Lemma Dispatch_open (s : Server NSt) (b : Buffer) (t : MType) :
  t <> Tversion ->
  Versioned s = true ->
  Dispatch s b t
  = match switch_case handler_cases t with
    | Some f => tuple_outcome (f s b)
    | None =>
        Ret s (ServerError b ("Dispatch: " ++ RPCNames t ++ " not supported")) None
    end.
Proof.
  intros Ht Hv. unfold Dispatch.
  apply Z.eqb_neq in Ht. rewrite Ht, Hv. reflexivity.
Qed.

Lemma switch_case_In {A} (cases : list (MType * A)) (t : MType) (f : A) :
  switch_case cases t = Some f -> In (t, f) cases.
Proof.
  induction cases as [| [k g] cases IH]; simpl; [discriminate |].
  destruct (Z.eqb_spec t k) as [-> | Hne].
  - intros [= ->]. now left.
  - intros H. right. now apply IH.
Qed.

Lemma switch_case_None {A} (cases : list (MType * A)) (t : MType) :
  ~ In t (map fst cases) -> switch_case cases t = None.
Proof.
  induction cases as [| [k g] cases IH]; simpl; [reflexivity |].
  intros Hn. destruct (Z.eqb_spec t k) as [-> | Hne].
  - exfalso. apply Hn. now left.
  - apply IH. intros Hin. apply Hn. now right.
Qed.

Lemma unhandled_no_case (t : MType) :
  ~ In t handled -> switch_case handler_cases t = None.
Proof. intros Hn. apply switch_case_None. exact Hn. Qed.

(** What a call does to [Versioned], the handlers leaving it alone. *)
Lemma Dispatch_Versioned (s s' : Server NSt) (b b' : Buffer) (t : MType) (e : error) :
  HandlersKeepVersioned h ->
  Dispatch s b t = Ret s' b' e ->
  Versioned s' = (t =? Tversion) || Versioned s.
Proof.
  intros Hk. unfold Dispatch.
  assert (Hcase : forall s1,
    match switch_case handler_cases t with
    | Some f => tuple_outcome (f s1 b)
    | None =>
        Ret s1 (ServerError b ("Dispatch: " ++ RPCNames t ++ " not supported")) None
    end = Ret s' b' e -> Versioned s' = Versioned s1).
  { intros s1. destruct (switch_case handler_cases t) as [f |] eqn:Ef.
    - apply switch_case_In in Ef.
      unfold HandlersKeepVersioned in Hk. rewrite Forall_forall in Hk.
      specialize (Hk _ Ef s1 b). simpl in Hk.
      destruct (f s1 b) as [[s2 b2] e2]. simpl in *.
      intros [= <- _ _]. exact Hk.
    - intros [= <- _ _]. reflexivity. }
  destruct (t =? Tversion).
  - intros H. apply Hcase in H. exact H.
  - destruct (Versioned s) eqn:Hv; simpl.
    + intros H. apply Hcase in H. congruence.
    + destruct b as [| d0 [| d1 rest]]; try discriminate.
      intros [= <- _ _]. exact Hv.
Qed.

(** The one way to a panic: the gate indexing a buffer without a tag. *)
Lemma Dispatch_Panic_inv (s : Server NSt) (b : Buffer) (t : MType) :
  Dispatch s b t = Panic ->
  Versioned s = false /\ t <> Tversion /\ (List.length b < 2)%nat.
Proof.
  unfold Dispatch.
  assert (Hcase : forall s1,
    match switch_case handler_cases t with
    | Some f => tuple_outcome (f s1 b)
    | None =>
        Ret s1 (ServerError b ("Dispatch: " ++ RPCNames t ++ " not supported")) None
    end <> Panic).
  { intros s1. destruct (switch_case handler_cases t) as [f |]; [| discriminate].
    unfold tuple_outcome. destruct (f s1 b) as [[s2 b2] e2]. discriminate. }
  destruct (Z.eqb_spec t Tversion) as [-> | Hne].
  - intros H. now apply Hcase in H.
  - destruct (Versioned s); simpl.
    + intros H. now apply Hcase in H.
    + destruct b as [| d0 [| d1 rest]]; try discriminate;
        intros _; simpl; repeat split; try assumption; lia.
Qed.

End WithHandlers.

(** The handlers of the fixture leave [Versioned] alone. *)
Lemma Fixture_keeps_Versioned : HandlersKeepVersioned Fixture.handlers.
Proof.
  assert (Hv : keeps_Versioned Fixture.version_only).
  { intros s b. unfold Fixture.version_only.
    repeat (destruct b as [| ? b]; [reflexivity |]).
    match goal with |- context [if ?c then _ else _] => destruct c end;
      reflexivity. }
  assert (Hd : keeps_Versioned Fixture.declined) by (intros s b; reflexivity).
  assert (Hf : keeps_Versioned Fixture.flush_noop).
  { intros s b. unfold Fixture.flush_noop.
    destruct b as [| t0 [| t1 b]]; reflexivity. }
  unfold HandlersKeepVersioned, handler_cases.
  repeat (constructor; [first [exact Hv | exact Hd | exact Hf] |]).
  constructor.
Qed.

End DispatchFacts.
Import DispatchFacts.

(* ------------------------------------------------------------------ *)
(** ** One turn of the connection loop *)

Module ConnFacts.

Lemma Write_sent (w w' : writer) (p : Buffer) :
  Write w p = (w', None) -> sent w' = sent w ++ [p].
Proof.
  unfold Write. destruct (script w) as [| [e |] sc]; intros [= <-]; reflexivity.
Qed.

(** A single [Read] of seven bytes returns seven bytes only when they are
    all there, in the piece at the head of the stream. *)
Lemma Read_7_inv (r rd1 : reader) (l : list byte) :
  Read r 7 = (l, None, rd1) ->
  exists bs r', r = Data bs :: r' /\ l = firstn 7 bs
                /\ (List.length l = Nat.min 7 (List.length bs)).
Proof.
  unfold Read. destruct r as [| [bs | e] r']; try discriminate.
  destruct (Nat.leb_spec (List.length bs) 7) as [Hle | Hgt];
    intros [= <- <-]; exists bs, r'.
  - rewrite firstn_all2 by exact Hle.
    split; [reflexivity | split; [reflexivity | lia]].
  - split; [reflexivity | split; [reflexivity |]].
    exact (length_firstn 7 bs).
Qed.

Section WithHandlers.

Context {NSt : Type} {h : Handlers NSt}.

(** The buffer [serve] hands to the dispatcher holds the two tag bytes, so
    the dispatcher cannot run out of range on it. *)
Lemma Dispatch_tagged_no_panic (s : Server NSt) (d0 d1 : byte) (rest : Buffer)
    (t : MType) :
  Dispatch s (d0 :: d1 :: rest) t <> Panic.
Proof.
  intros H. apply Dispatch_Panic_inv in H. simpl in H. lia.
Qed.

(** A whole turn: the header read in one piece, the body copied, the
    request dispatched, the reply written. *)
Lemma serve_iter_turn (c : conn NSt) (l0 l1 l2 l3 l4 l5 l6 : byte)
    (rd1 rd2 : reader) (body : list byte)
    (s' : Server NSt) (b' : Buffer) (e : error) (w' : writer) (werr : option ioerr) :
  Read (Reader c) 7 = ([l0; l1; l2; l3; l4; l5; l6], None, rd1) ->
  CopyLimit rd1 (header_size l0 l1 l2 l3 - 7) = (body, None, rd2) ->
  Dispatch (server c) ([l5; l6] ++ body) (header_type l4) = Ret s' b' e ->
  Write (Writer c) b' = (w', werr) ->
  let reqID := wrap64 (requestCounter c + 1) in
  let c3 := mkConn s' rd2 w' (closed c) (dead c) reqID
              ((spans c
                ++ [EvRead reqID (header_type l4) (header_tag l5 l6)
                      ([l5; l6] ++ body)])
               ++ [EvWrite reqID b' werr]) in
  serve_iter c = match werr with
                 | Some _ => Stop ReplyWrite (die c3)
                 | None => Continue c3
                 end.
Proof.
  intros Hr Hc Hd Hw. unfold serve_iter.
  rewrite Hr. cbv zeta. rewrite Hc, Hd, Hw. reflexivity.
Qed.

End WithHandlers.

End ConnFacts.
Import ConnFacts.

(* ------------------------------------------------------------------ *)
(** ** The gate before Tversion *)

Module Gate.

Lemma gate_message_short (t : MType) :
  Z.of_nat (String.length
              ("Dispatch: " ++ RPCNames t ++ " not allowed before Tversion"))
  < 2 ^ 16.
Proof.
  rewrite !length_append. pose proof (RPCNames_short t).
  change (String.length "Dispatch: ") with 10%nat.
  change (String.length " not allowed before Tversion") with 28%nat. lia.
Qed.

Lemma header_tag_range (l5 l6 : byte) : 0 <= header_tag l5 l6 < 2 ^ 16.
Proof.
  rewrite header_tag_value.
  pose proof (u8_range l5). pose proof (u8_range l6). lia.
Qed.

(** C1.  A frame of any type other than Tversion that reaches a session
    whose [Versioned] is false is answered, in that turn of the loop, with
    the Rerror frame whose tag is the tag of the frame's header and whose
    ename is "Dispatch: <name> not allowed before Tversion"; the server is
    left as it was and the loop goes on to the next frame
    ([Continue], with [dead] and [closed] untouched). *)
Theorem gate_rejects_before_Tversion {NSt : Type} {h : Handlers NSt}
    (c : conn NSt) (l0 l1 l2 l3 l4 l5 l6 : byte)
    (rd1 rd2 : reader) (body : list byte) (w' : writer) :
  let m := ("Dispatch: " ++ RPCNames (header_type l4)
            ++ " not allowed before Tversion")%string in
  let reply := MarshalRerrorPkt ([l5; l6] ++ body) (header_tag l5 l6) m in
  let reqID := wrap64 (requestCounter c + 1) in
  Versioned (server c) = false ->
  header_type l4 <> Tversion ->
  Read (Reader c) 7 = ([l0; l1; l2; l3; l4; l5; l6], None, rd1) ->
  CopyLimit rd1 (header_size l0 l1 l2 l3 - 7) = (body, None, rd2) ->
  Write (Writer c) reply = (w', None) ->
  UnmarshalRerrorPkt reply
  = Some {| r_size := Z.of_nat (List.length reply);
            r_tag := u8 l5 + 256 * u8 l6;
            r_ename := m |}
  /\ sent w' = sent (Writer c) ++ [reply]
  /\ serve_iter c
     = Continue (mkConn (server c) rd2 w' (closed c) (dead c) reqID
                   ((spans c
                     ++ [EvRead reqID (header_type l4) (header_tag l5 l6)
                           ([l5; l6] ++ body)])
                    ++ [EvWrite reqID reply None])).
Proof.
  intros m reply reqID Hv Ht Hr Hc Hw.
  split; [| split].
  - subst reply. rewrite <- header_tag_value.
    apply Rerror_roundtrip; [apply header_tag_range | apply gate_message_short].
  - apply Write_sent. exact Hw.
  - apply (serve_iter_turn c l0 l1 l2 l3 l4 l5 l6 rd1 rd2 body
             (server c) reply (Some m) w' None Hr Hc); [| exact Hw].
    apply Dispatch_gate; assumption.
Qed.

(** Scenario 2 of the spec: Tattach with tag 1 on a fresh connection. *)
Lemma gate_rejects_Tattach_scenario :
  let m := "Dispatch: Tattach not allowed before Tversion"%string in
  let body := skipn 7 Tattach_frame in
  let reply := MarshalRerrorPkt ([Byte.x01; Byte.x00] ++ body) 1 m in
  UnmarshalRerrorPkt reply
  = Some {| r_size := 54; r_tag := 1; r_ename := m |}
  /\ sent (mkWriter [] [reply]) = [] ++ [reply]
  /\ serve_iter (h := Fixture.handlers) (fresh Tattach_frame)
     = Continue (mkConn (mkServer 0 false) [] (mkWriter [] [reply])
                   false false 1
                   (([] ++ [EvRead 1 Tattach 1 ([Byte.x01; Byte.x00] ++ body)])
                    ++ [EvWrite 1 reply None])).
Proof.
  exact (gate_rejects_before_Tversion (h := Fixture.handlers)
           (fresh Tattach_frame)
           Byte.x14 Byte.x00 Byte.x00 Byte.x00 Byte.x68 Byte.x01 Byte.x00
           [Data (skipn 7 Tattach_frame)] [] (skipn 7 Tattach_frame)
           (mkWriter [] [MarshalRerrorPkt
                           ([Byte.x01; Byte.x00] ++ skipn 7 Tattach_frame) 1
                           "Dispatch: Tattach not allowed before Tversion"])
           eq_refl
           ltac:(vm_compute; discriminate)
           eq_refl eq_refl eq_refl).
Defined.

(** C3, as the code has it.  [Versioned] is set when a Tversion is
    dispatched, before its handler runs: the handler is called on the server
    with the flag already true, and the flag is true afterwards whether the
    handler returns nil or an error.  No other type of message changes it. *)
Theorem Versioned_set_when_Tversion_dispatched {NSt : Type} {h : Handlers NSt}
    (s : Server NSt) (b : Buffer) :
  HandlersKeepVersioned h ->
  (exists s' b' e,
      SrvRversion (mkServer (NS s) true) b = (s', b', e)
      /\ Dispatch s b Tversion = Ret s' b' e
      /\ Versioned s' = true)
  /\ (forall t s' b' e,
         t <> Tversion -> Dispatch s b t = Ret s' b' e ->
         Versioned s' = Versioned s).
Proof.
  intros Hk. split.
  - destruct (SrvRversion (mkServer (NS s) true) b) as [[s' b'] e] eqn:E.
    exists s', b', e.
    assert (Hd : Dispatch s b Tversion = Ret s' b' e)
      by (rewrite Dispatch_Tversion, E; reflexivity).
    repeat split; [exact Hd |].
    rewrite (Dispatch_Versioned s s' b b' Tversion e Hk Hd). reflexivity.
  - intros t s' b' e Ht Hd.
    rewrite (Dispatch_Versioned s s' b b' t e Hk Hd).
    apply Z.eqb_neq in Ht. rewrite Ht. reflexivity.
Qed.

Lemma Versioned_set_when_Tversion_dispatched_fixture :
  (exists s' b' e,
      @SrvRversion Z Fixture.handlers
        (mkServer (NS (mkServer 0 false)) true) [Byte.xff; Byte.xff]
      = (s', b', e)
      /\ Dispatch (h := Fixture.handlers) (mkServer 0 false)
           [Byte.xff; Byte.xff] Tversion = Ret s' b' e
      /\ Versioned s' = true)
  /\ (forall t s' b' e,
         t <> Tversion ->
         Dispatch (h := Fixture.handlers) (mkServer 0 false)
           [Byte.xff; Byte.xff] t = Ret s' b' e ->
         Versioned s' = Versioned (mkServer 0 false)).
Proof.
  exact (Versioned_set_when_Tversion_dispatched (h := Fixture.handlers)
           (mkServer 0 false) [Byte.xff; Byte.xff] Fixture_keeps_Versioned).
Defined.

(** C3, as the spec words it, fails: a Tversion whose body is missing makes
    its handler return an error, and the session that was not versioned is
    versioned afterwards; the Tattach that follows passes the gate. *)
Lemma failed_Tversion_opens_gate :
  Versioned (mkServer 0 false) = false
  /\ Dispatch (h := Fixture.handlers) (mkServer 0 false)
       [Byte.xff; Byte.xff] Tversion
     = Ret (mkServer 0 true) [Byte.xff; Byte.xff] (Some "MalformedFrame"%string)
  /\ Dispatch (h := Fixture.handlers) (mkServer 0 true)
       (skipn 5 Tattach_frame) Tattach
     = Ret (mkServer 0 true)
         (MarshalRerrorPkt [] 1 "permission denied") None.
Proof. repeat split. Qed.

(** C9.  Over any sequence of calls of [Dispatch] on one server, once
    [Versioned] is true it is true after every later call, a later Tversion
    included; and none of these calls panics. *)
Theorem Versioned_monotone {NSt : Type} {h : Handlers NSt}
    (s : Server NSt) (reqs : list (Buffer * MType)) :
  HandlersKeepVersioned h ->
  Versioned s = true ->
  List.length (Dispatch_seq s reqs) = List.length reqs
  /\ Forall (fun o => exists s' b' e, o = Ret s' b' e /\ Versioned s' = true)
            (Dispatch_seq s reqs).
Proof.
  intros Hk. revert s.
  induction reqs as [| [b t] reqs IH]; intros s Hv; simpl.
  - split; [reflexivity | constructor].
  - destruct (Dispatch s b t) as [s' b' e |] eqn:Hd.
    + assert (Hv' : Versioned s' = true).
      { rewrite (Dispatch_Versioned s s' b b' t e Hk Hd), Hv.
        apply orb_true_r. }
      destruct (IH s' Hv') as [Hlen Hall]. split.
      * simpl. now rewrite Hlen.
      * constructor; [| exact Hall]. now exists s', b', e.
    + apply Dispatch_Panic_inv in Hd. destruct Hd as [Hf _]. congruence.
Qed.

Lemma Versioned_monotone_fixture :
  List.length
    (Dispatch_seq (h := Fixture.handlers) (mkServer 0 true)
       [(skipn 5 Tattach_frame, Tattach); ([Byte.xff; Byte.xff], Tversion);
        (skipn 5 (Tversion_frame 8192), Tversion); ([], Tauth)]) = 4%nat
  /\ Forall (fun o => exists s' b' e, o = Ret s' b' e /\ Versioned s' = true)
       (Dispatch_seq (h := Fixture.handlers) (mkServer 0 true)
          [(skipn 5 Tattach_frame, Tattach); ([Byte.xff; Byte.xff], Tversion);
           (skipn 5 (Tversion_frame 8192), Tversion); ([], Tauth)]).
Proof.
  exact (Versioned_monotone (h := Fixture.handlers) (mkServer 0 true)
           [(skipn 5 Tattach_frame, Tattach); ([Byte.xff; Byte.xff], Tversion);
            (skipn 5 (Tversion_frame 8192), Tversion); ([], Tauth)]
           Fixture_keeps_Versioned eq_refl).
Defined.

End Gate.

(* ------------------------------------------------------------------ *)
(** ** Types without a handler *)

Module Unsupported.

Lemma unsupported_message_short (t : MType) :
  Z.of_nat (String.length ("Dispatch: " ++ RPCNames t ++ " not supported"))
  < 2 ^ 16.
Proof.
  rewrite !length_append. pose proof (RPCNames_short t).
  change (String.length "Dispatch: ") with 10%nat.
  change (String.length " not supported") with 14%nat. lia.
Qed.

(** C5, as the code has it.  On a session whose [Versioned] is true, a frame
    whose type has no case in the second [switch] makes [Dispatch] leave
    the server as it was, put in the buffer the Rerror frame that carries
    the frame's tag and the ename "Dispatch: <name> not supported", and
    return nil; the loop writes that frame and goes on. *)
Theorem unsupported_type_gets_Rerror {NSt : Type} {h : Handlers NSt}
    (c : conn NSt) (l0 l1 l2 l3 l4 l5 l6 : byte)
    (rd1 rd2 : reader) (body : list byte) (w' : writer) :
  let t := header_type l4 in
  let m := ("Dispatch: " ++ RPCNames t ++ " not supported")%string in
  let reply := MarshalRerrorPkt ([l5; l6] ++ body) (header_tag l5 l6) m in
  let reqID := wrap64 (requestCounter c + 1) in
  Versioned (server c) = true ->
  ~ In t handled ->
  Read (Reader c) 7 = ([l0; l1; l2; l3; l4; l5; l6], None, rd1) ->
  CopyLimit rd1 (header_size l0 l1 l2 l3 - 7) = (body, None, rd2) ->
  Write (Writer c) reply = (w', None) ->
  Dispatch (server c) ([l5; l6] ++ body) t = Ret (server c) reply None
  /\ UnmarshalRerrorPkt reply
     = Some {| r_size := Z.of_nat (List.length reply);
               r_tag := u8 l5 + 256 * u8 l6;
               r_ename := m |}
  /\ sent w' = sent (Writer c) ++ [reply]
  /\ serve_iter c
     = Continue (mkConn (server c) rd2 w' (closed c) (dead c) reqID
                   ((spans c
                     ++ [EvRead reqID t (header_tag l5 l6) ([l5; l6] ++ body)])
                    ++ [EvWrite reqID reply None])).
Proof.
  intros t m reply reqID Hv Hn Hr Hc Hw.
  assert (Hd : Dispatch (server c) ([l5; l6] ++ body) t
               = Ret (server c) reply None).
  { assert (Ht : t <> Tversion).
    { intros E. apply Hn. rewrite E. now left. }
    rewrite (Dispatch_open _ _ _ Ht Hv), (unhandled_no_case t Hn).
    reflexivity. }
  split; [exact Hd | split; [| split]].
  - subst reply. rewrite <- header_tag_value.
    apply Rerror_roundtrip;
      [apply Gate.header_tag_range | apply unsupported_message_short].
  - apply Write_sent. exact Hw.
  - exact (serve_iter_turn c l0 l1 l2 l3 l4 l5 l6 rd1 rd2 body
             (server c) reply None w' None Hr Hc Hd Hw).
Qed.

(** Tauth with tag 2 on a versioned session. *)
Lemma unsupported_Tauth_scenario :
  let m := "Dispatch: Tauth not supported"%string in
  let b := skipn 5 Tauth_frame in
  let reply := MarshalRerrorPkt b 2 m in
  Dispatch (h := Fixture.handlers) (mkServer 8192 true) b Tauth
  = Ret (mkServer 8192 true) reply None
  /\ UnmarshalRerrorPkt reply
     = Some {| r_size := 38; r_tag := 2; r_ename := m |}
  /\ sent (mkWriter [] [reply]) = [] ++ [reply]
  /\ serve_iter (h := Fixture.handlers) (versioned 8192 Tauth_frame)
     = Continue (mkConn (mkServer 8192 true) [] (mkWriter [] [reply])
                   false false 2
                   (([] ++ [EvRead 2 Tauth 2 b]) ++ [EvWrite 2 reply None])).
Proof.
  exact (unsupported_type_gets_Rerror (h := Fixture.handlers)
           (versioned 8192 Tauth_frame)
           Byte.x10 Byte.x00 Byte.x00 Byte.x00 Byte.x66 Byte.x02 Byte.x00
           [Data (skipn 7 Tauth_frame)] [] (skipn 7 Tauth_frame)
           (mkWriter [] [MarshalRerrorPkt (skipn 5 Tauth_frame) 2
                           "Dispatch: Tauth not supported"])
           eq_refl
           ltac:(vm_compute; intuition discriminate)
           eq_refl eq_refl eq_refl).
Defined.

(** C5, as the spec words it, fails before Tversion: Tauth has no handler,
    yet on a session that is not versioned the Rerror says "not allowed
    before Tversion" and [Dispatch] returns an error, not nil. *)
Lemma unsupported_type_before_Tversion :
  ~ In Tauth handled
  /\ Dispatch (h := Fixture.handlers) (mkServer 0 false)
       (skipn 5 Tauth_frame) Tauth
     = Ret (mkServer 0 false)
         (MarshalRerrorPkt [] 2 "Dispatch: Tauth not allowed before Tversion")
         (Some "Dispatch: Tauth not allowed before Tversion"%string)
  /\ Dispatch (h := Fixture.handlers) (mkServer 0 false)
       (skipn 5 Tauth_frame) Tauth
     <> Ret (mkServer 0 false)
          (MarshalRerrorPkt [] 2 "Dispatch: Tauth not supported") None.
Proof.
  split; [| split].
  - vm_compute. intuition discriminate.
  - reflexivity.
  - vm_compute. discriminate.
Qed.

End Unsupported.

(* ------------------------------------------------------------------ *)
(** ** When the connection loop returns *)

Module Terminal.

Lemma CopyLimit_size (r rd2 : reader) (n : Z) (body : list byte)
    (e : option ioerr) :
  CopyLimit r n = (body, e, rd2) -> (rd_size rd2 <= rd_size r)%nat.
Proof.
  revert n body e rd2.
  induction r as [| [bs | er] r IH]; intros n body e rd2; simpl.
  - destruct (n <=? 0); intros [= _ _ <-]; simpl; lia.
  - destruct (n <=? 0); [intros [= _ _ <-]; simpl; lia |].
    destruct (Z.leb_spec (Z.of_nat (List.length bs)) n) as [Hle | Hgt].
    + destruct (CopyLimit r (n - Z.of_nat (List.length bs)))
        as [[d e2] r2] eqn:E.
      intros [= _ _ <-]. apply IH in E. lia.
    + intros [= _ _ <-]. cbn [rd_size].
      pose proof (length_skipn (Z.to_nat n) bs). lia.
  - destruct (n <=? 0); [intros [= _ _ <-]; simpl; lia |].
    destruct er; intros [= _ _ <-]; simpl; lia.
Qed.

Lemma Read_7_size (r rd1 : reader) (l0 l1 l2 l3 l4 l5 l6 : byte) :
  Read r 7 = ([l0; l1; l2; l3; l4; l5; l6], None, rd1) ->
  (rd_size rd1 < rd_size r)%nat.
Proof.
  unfold Read. destruct r as [| [bs | e] r']; try discriminate.
  destruct (Nat.leb_spec (List.length bs) 7) as [Hle | Hgt].
  - intros [= _ <-]. simpl. lia.
  - intros H. apply (f_equal snd) in H. cbn [snd] in H. subst rd1.
    cbn [rd_size]. pose proof (length_skipn 7 bs). lia.
Qed.

Section WithHandlers.

Context {NSt : Type} {h : Handlers NSt}.

(** Every way through a turn of the loop. *)
Lemma serve_iter_inv (c : conn NSt) :
  let reqID := wrap64 (requestCounter c + 1) in
  (header_fails c
   /\ exists rd1,
       serve_iter c
       = Stop HeaderRead
           (mkConn (server c) rd1 (Writer c) (closed c) true reqID (spans c)))
  \/ exists l0 l1 l2 l3 l4 l5 l6 rd1 body cerr rd2,
      Read (Reader c) 7 = ([l0; l1; l2; l3; l4; l5; l6], None, rd1)
      /\ CopyLimit rd1 (header_size l0 l1 l2 l3 - 7) = (body, cerr, rd2)
      /\ ((exists e, cerr = Some e
            /\ serve_iter c
               = Stop BodyRead
                   (mkConn (server c) rd2 (Writer c) (closed c) true reqID
                           (spans c)))
          \/ (cerr = None
              /\ exists s' b' derr w' werr,
                  Dispatch (server c) ([l5; l6] ++ body) (header_type l4)
                  = Ret s' b' derr
                  /\ Write (Writer c) b' = (w', werr)
                  /\ serve_iter c
                     = let c3 :=
                         mkConn s' rd2 w' (closed c) (dead c) reqID
                           ((spans c
                             ++ [EvRead reqID (header_type l4)
                                   (header_tag l5 l6) ([l5; l6] ++ body)])
                            ++ [EvWrite reqID b' werr]) in
                       match werr with
                       | Some _ => Stop ReplyWrite (die c3)
                       | None => Continue c3
                       end)).
Proof.
  intros reqID.
  destruct (Read (Reader c) 7) as [[l err] rd1] eqn:Hr.
  assert (Hbad : err <> None \/ (List.length l < 7)%nat ->
                 header_fails c
                 /\ exists rd1,
                     serve_iter c
                     = Stop HeaderRead
                         (mkConn (server c) rd1 (Writer c) (closed c) true
                                 reqID (spans c))).
  { intros Hb. split.
    - unfold header_fails. rewrite Hr. exact Hb.
    - exists rd1. unfold serve_iter. rewrite Hr.
      destruct err as [e |]; [reflexivity |].
      destruct Hb as [Hb | Hb]; [congruence |].
      destruct l as [| l0 [| l1 [| l2 [| l3 [| l4 [| l5 [| l6 l]]]]]]];
        try reflexivity.
      simpl in Hb. lia. }
  destruct err as [e |]; [left; apply Hbad; left; discriminate |].
  destruct (Nat.lt_ge_cases (List.length l) 7) as [Hlt | Hge];
    [left; apply Hbad; right; exact Hlt |].
  right.
  assert (Hlen : List.length l = 7%nat).
  { destruct (Read_7_inv _ _ _ Hr) as (bs & r' & _ & _ & Hl). lia. }
  destruct l as [| l0 [| l1 [| l2 [| l3 [| l4 [| l5 [| l6 [| l7 l]]]]]]]];
    try discriminate Hlen.
  destruct (CopyLimit rd1 (header_size l0 l1 l2 l3 - 7))
    as [[body cerr] rd2] eqn:Hc.
  exists l0, l1, l2, l3, l4, l5, l6, rd1, body, cerr, rd2.
  split; [reflexivity | split; [exact Hc |]].
  destruct cerr as [e |].
  - left. exists e. split; [reflexivity |].
    unfold serve_iter. rewrite Hr. cbv zeta. rewrite Hc. reflexivity.
  - right. split; [reflexivity |].
    destruct (Dispatch (server c) ([l5; l6] ++ body) (header_type l4))
      as [s' b' derr |] eqn:Hd.
    + destruct (Write (Writer c) b') as [w' werr] eqn:Hw.
      exists s', b', derr, w', werr.
      split; [reflexivity | split; [exact Hw |]].
      exact (serve_iter_turn c l0 l1 l2 l3 l4 l5 l6 rd1 rd2 body
               s' b' derr w' werr Hr Hc Hd Hw).
    + exfalso. exact (Dispatch_tagged_no_panic _ _ _ _ _ Hd).
Qed.

Lemma serve_iter_Stop (c c' : conn NSt) (why : stop_reason) :
  serve_iter c = Stop why c' ->
  dead c' = true /\ why <> DispatchPanic
  /\ (header_fails c \/ body_fails c \/ write_fails c).
Proof.
  intros Hs.
  destruct (serve_iter_inv c) as
    [[Hh [rd1 E]] |
     (l0 & l1 & l2 & l3 & l4 & l5 & l6 & rd1 & body & cerr & rd2 & Hr & Hc
      & [(e & -> & E) | (-> & s' & b' & derr & w' & werr & Hd & Hw & E)])];
    rewrite E in Hs.
  - injection Hs as <- <-. repeat split; [discriminate | now left].
  - injection Hs as <- <-. repeat split; [discriminate |].
    right; left. now exists l0, l1, l2, l3, l4, l5, l6, rd1, body, e, rd2.
  - cbv zeta in Hs. destruct werr as [e |]; [| discriminate].
    injection Hs as <- <-. repeat split; [discriminate |].
    right; right.
    now exists l0, l1, l2, l3, l4, l5, l6, rd1, body, rd2, s', b', derr, w', e.
Qed.

Lemma serve_iter_Continue (c c' : conn NSt) :
  serve_iter c = Continue c' ->
  (rd_size (Reader c') < rd_size (Reader c))%nat
  /\ dead c' = dead c /\ closed c' = closed c
  /\ ~ (header_fails c \/ body_fails c \/ write_fails c).
Proof.
  intros Hs.
  destruct (serve_iter_inv c) as
    [[Hh [rd1 E]] |
     (l0 & l1 & l2 & l3 & l4 & l5 & l6 & rd1 & body & cerr & rd2 & Hr & Hc
      & [(e & -> & E) | (-> & s' & b' & derr & w' & werr & Hd & Hw & E)])];
    rewrite E in Hs; try discriminate.
  cbv zeta in Hs. destruct werr as [e |]; [discriminate |].
  injection Hs as <-. cbn [Reader dead closed].
  pose proof (Read_7_size _ _ _ _ _ _ _ _ _ Hr).
  pose proof (CopyLimit_size _ _ _ _ _ Hc).
  repeat split; try lia.
  intros [Hf | [Hf | Hf]].
  - unfold header_fails in Hf. rewrite Hr in Hf. simpl in Hf.
    destruct Hf as [Hf | Hf]; [congruence | lia].
  - destruct Hf as (? & ? & ? & ? & ? & ? & ? & ? & ? & ? & ? & Hr' & Hc').
    rewrite Hr in Hr'. injection Hr' as <- <- <- <- <- <- <- <-.
    rewrite Hc in Hc'. discriminate.
  - destruct Hf as (? & ? & ? & ? & ? & ? & ? & ? & ? & ? & ? & ? & ? & ? & ?
                    & Hr' & Hc' & Hd' & Hw').
    rewrite Hr in Hr'. injection Hr' as <- <- <- <- <- <- <- <-.
    rewrite Hc in Hc'. injection Hc' as <- <-.
    rewrite Hd in Hd'. injection Hd' as <- <- <-.
    rewrite Hw in Hw'. discriminate.
Qed.

(** The loop returns once the stream is used up: fuel beyond the size of
    what is left to read is never needed. *)
Lemma serve_loop_terminates (fuel : nat) (c : conn NSt) :
  (rd_size (Reader c) < fuel)%nat ->
  exists c', serve_loop fuel c = Some c' /\ dead c' = true.
Proof.
  revert c. induction fuel as [| fuel IH]; intros c Hlt; [lia |].
  simpl. destruct (dead c) eqn:Hdead; [now exists c |].
  destruct (serve_iter c) as [c1 | why c1] eqn:Hs.
  - apply serve_iter_Continue in Hs. destruct Hs as (Hsz & _).
    apply IH. lia.
  - apply serve_iter_Stop in Hs. exists c1. now split.
Qed.

(** The loop returns at the first turn that stops, and not before. *)
Lemma serve_loop_first_stop (m : nat) (c : conn NSt) :
  (rd_size (Reader c) < m)%nat ->
  dead c = false ->
  exists n cn why c'',
    (n <= rd_size (Reader c))%nat
    /\ after_turns n c = Some cn
    /\ (forall k ck,
          (k < n)%nat -> after_turns k c = Some ck ->
          dead ck = false
          /\ ~ (header_fails ck \/ body_fails ck \/ write_fails ck))
    /\ (header_fails cn \/ body_fails cn \/ write_fails cn)
    /\ serve_iter cn = Stop why c''
    /\ (forall fuel, (n < fuel)%nat -> serve_loop fuel c = Some c'')
    /\ (forall fuel, (fuel <= n)%nat -> serve_loop fuel c = None).
Proof.
  revert c. induction m as [| m IH]; intros c Hlt Hdead; [lia |].
  destruct (serve_iter c) as [c1 | why c1] eqn:Hs.
  - pose proof (serve_iter_Continue c c1 Hs) as (Hsz & Hd1 & _ & Hno).
    destruct (IH c1) as
      (n & cn & why & c'' & Hn & Hafter & Hbefore & Hcond & Hstop & Hret & Hnot);
      [lia | congruence |].
    exists (S n), cn, why, c''.
    split; [lia |]. split; [cbn [after_turns]; now rewrite Hs |].
    split; [| split; [exact Hcond | split; [exact Hstop | split]]].
    + intros k ck Hk Hck. destruct k as [| k].
      * injection Hck as <-. now split.
      * cbn [after_turns] in Hck. rewrite Hs in Hck.
        apply (Hbefore k ck); [lia | exact Hck].
    + intros fuel Hf. destruct fuel as [| fuel]; [lia |].
      cbn [serve_loop]. rewrite Hdead, Hs. apply Hret. lia.
    + intros fuel Hf. destruct fuel as [| fuel].
      * cbn [serve_loop]. now rewrite Hdead.
      * cbn [serve_loop]. rewrite Hdead, Hs. apply Hnot. lia.
  - pose proof (serve_iter_Stop c c1 why Hs) as (_ & _ & Hcond).
    exists 0%nat, c, why, c1.
    split; [lia |]. split; [reflexivity |].
    split; [intros k ck Hk; lia |].
    split; [exact Hcond |]. split; [exact Hs |]. split.
    + intros fuel Hf. destruct fuel as [| fuel]; [lia |].
      cbn [serve_loop]. now rewrite Hdead, Hs.
    + intros fuel Hf. assert (fuel = 0%nat) as -> by lia.
      cbn [serve_loop]. now rewrite Hdead.
Qed.

Lemma serve_loop_dead (fuel : nat) (c c' : conn NSt) :
  serve_loop fuel c = Some c' -> dead c' = true.
Proof.
  revert c. induction fuel as [| fuel IH]; intros c; simpl.
  - destruct (dead c) eqn:Hd; [intros [= <-]; exact Hd | discriminate].
  - destruct (dead c) eqn:Hd; [intros [= <-]; exact Hd |].
    destruct (serve_iter c) as [c1 | why c1] eqn:Hs.
    + apply IH.
    + intros [= <-]. now apply serve_iter_Stop in Hs.
Qed.

End WithHandlers.

End Terminal.
Import Terminal.

(* ------------------------------------------------------------------ *)
(** ** Reading a frame *)

Module Framing.

(** What [io.Copy] appends is the head of what the stream holds before its
    first error, cut at the limit. *)
Lemma CopyLimit_firstn (r rd2 : reader) (n : Z) (body : list byte)
    (e : option ioerr) :
  CopyLimit r n = (body, e, rd2) -> body = firstn (Z.to_nat n) (available r).
Proof.
  revert n body e rd2.
  induction r as [| [bs | er] r IH]; intros n body e rd2; simpl.
  - destruct (n <=? 0); intros [= <- _ _]; now rewrite firstn_nil.
  - destruct (Z.leb_spec n 0) as [Hn | Hn].
    + intros [= <- _ _]. replace (Z.to_nat n) with 0%nat by lia. reflexivity.
    + destruct (Z.leb_spec (Z.of_nat (List.length bs)) n) as [Hle | Hgt].
      * destruct (CopyLimit r (n - Z.of_nat (List.length bs)))
          as [[d e2] r2] eqn:E.
        intros [= <- _ _]. apply IH in E. subst d.
        rewrite firstn_app, (@firstn_all2 _ (Z.to_nat n) bs) by lia.
        replace (Z.to_nat (n - Z.of_nat (List.length bs)))
          with (Z.to_nat n - List.length bs)%nat by lia.
        reflexivity.
      * intros [= <- _ _].
        rewrite firstn_app.
        replace (Z.to_nat n - List.length bs)%nat with 0%nat by lia.
        now rewrite firstn_O, app_nil_r.
  - destruct (n <=? 0); [intros [= <- _ _]; now rewrite firstn_nil |].
    destruct er; intros [= <- _ _]; now rewrite firstn_nil.
Qed.

(** With enough bytes ahead of any error the copy takes the limit exactly
    and leaves what follows. *)
Lemma CopyLimit_enough (r : reader) (n : Z) :
  (Z.to_nat n <= List.length (available r))%nat ->
  exists rd2,
    CopyLimit r n = (firstn (Z.to_nat n) (available r), None, rd2)
    /\ available rd2 = skipn (Z.to_nat n) (available r).
Proof.
  revert n.
  induction r as [| [bs | er] r IH]; intros n Hn; simpl in *.
  - assert (n <= 0) by lia.
    destruct (Z.leb_spec n 0); [| lia].
    exists []. now rewrite firstn_nil, skipn_nil.
  - destruct (Z.leb_spec n 0) as [H0 | H0].
    + replace (Z.to_nat n) with 0%nat by lia.
      exists (Data bs :: r). split; reflexivity.
    + rewrite length_app in Hn.
      destruct (Z.leb_spec (Z.of_nat (List.length bs)) n) as [Hle | Hgt].
      * destruct (IH (n - Z.of_nat (List.length bs))) as (rd2 & Hc & Ha);
          [lia |].
        exists rd2. rewrite Hc. split.
        -- rewrite firstn_app, (@firstn_all2 _ (Z.to_nat n) bs) by lia.
           replace (Z.to_nat (n - Z.of_nat (List.length bs)))
             with (Z.to_nat n - List.length bs)%nat by lia.
           reflexivity.
        -- rewrite Ha, skipn_app, (@skipn_all2 _ (Z.to_nat n) bs) by lia.
           replace (Z.to_nat (n - Z.of_nat (List.length bs)))
             with (Z.to_nat n - List.length bs)%nat by lia.
           reflexivity.
      * exists (Data (skipn (Z.to_nat n) bs) :: r). split.
        -- rewrite firstn_app.
           replace (Z.to_nat n - List.length bs)%nat with 0%nat by lia.
           now rewrite firstn_O, app_nil_r.
        -- simpl. rewrite skipn_app.
           replace (Z.to_nat n - List.length bs)%nat with 0%nat by lia.
           reflexivity.
  - assert (n <= 0) by lia.
    destruct (Z.leb_spec n 0); [| lia].
    replace (Z.to_nat n) with 0%nat by lia.
    exists (Fail er :: r). split; reflexivity.
Qed.

Lemma CopyLimit_nothing (r : reader) (n : Z) :
  n <= 0 -> CopyLimit r n = ([], None, r).
Proof.
  intros Hn. destruct r as [| sg r]; simpl;
    destruct (Z.leb_spec n 0); try lia; reflexivity.
Qed.

Section WithHandlers.

Context {NSt : Type} {h : Handlers NSt}.

(** A frame that is all there.  From a header of seven bytes [serve]
    takes the size as the little-endian value of bytes 0-3, the type as
    byte 4 and the tag as the little-endian value of bytes 5-6.  It never
    reads more than size - 7 bytes after the header; when the size is at
    least 7 and the stream holds size - 7 more bytes before any error, the
    body is exactly those bytes, the stream is left at the byte after them,
    and the dispatcher receives the two tag bytes followed by the body. *)
Theorem header_fields_and_body (c : conn NSt) (l0 l1 l2 l3 l4 l5 l6 : byte)
    (rd1 : reader) :
  let sz := u8 l0 + 2 ^ 8 * u8 l1 + 2 ^ 16 * u8 l2 + 2 ^ 24 * u8 l3 in
  let t := u8 l4 in
  let tag := u8 l5 + 2 ^ 8 * u8 l6 in
  let n := Z.to_nat (sz - 7) in
  let body := firstn n (available rd1) in
  let reqID := wrap64 (requestCounter c + 1) in
  Read (Reader c) 7 = ([l0; l1; l2; l3; l4; l5; l6], None, rd1) ->
  (header_size l0 l1 l2 l3 = sz /\ header_type l4 = t /\ header_tag l5 l6 = tag)
  /\ (forall read e rd2,
         CopyLimit rd1 (header_size l0 l1 l2 l3 - 7) = (read, e, rd2) ->
         Z.of_nat (List.length read) <= Z.max 0 (sz - 7))
  /\ (7 <= sz ->
      (n <= List.length (available rd1))%nat ->
      Z.of_nat (List.length body) = sz - 7
      /\ exists rd2 s' b' derr w' werr,
          CopyLimit rd1 (header_size l0 l1 l2 l3 - 7) = (body, None, rd2)
          /\ available rd2 = skipn n (available rd1)
          /\ Dispatch (server c) ([l5; l6] ++ body) t = Ret s' b' derr
          /\ Write (Writer c) b' = (w', werr)
          /\ serve_iter c
             = let c3 :=
                 mkConn s' rd2 w' (closed c) (dead c) reqID
                   ((spans c ++ [EvRead reqID t tag ([l5; l6] ++ body)])
                    ++ [EvWrite reqID b' werr]) in
               match werr with
               | Some _ => Stop ReplyWrite (die c3)
               | None => Continue c3
               end).
Proof.
  intros sz t tag n body reqID Hr.
  assert (Hsz : header_size l0 l1 l2 l3 = sz) by apply header_size_value.
  assert (Htag : header_tag l5 l6 = tag) by apply header_tag_value.
  split; [repeat split; assumption |].
  split.
  - intros read e rd2 Hc. apply CopyLimit_firstn in Hc. subst read.
    rewrite length_firstn, Hsz. lia.
  - intros H7 Hn. split.
    + subst body. rewrite length_firstn. lia.
    + destruct (CopyLimit_enough rd1 (sz - 7) Hn) as (rd2 & Hc & Ha).
      fold n in Hc, Ha. fold body in Hc. rewrite <- Hsz in Hc.
      destruct (Dispatch (server c) ([l5; l6] ++ body) t)
        as [s' b' derr |] eqn:Hd;
        [| exfalso; exact (Dispatch_tagged_no_panic _ _ _ _ _ Hd)].
      destruct (Write (Writer c) b') as [w' werr] eqn:Hw.
      exists rd2, s', b', derr, w', werr.
      repeat split; try assumption.
      rewrite <- Htag.
      exact (serve_iter_turn c l0 l1 l2 l3 l4 l5 l6 rd1 rd2 body
               s' b' derr w' werr Hr Hc Hd Hw).
Qed.

(** C4, as the code has it.  The loop compares the size field with
    nothing, neither 7 nor an msize: whatever the seven bytes of the header
    say, and whatever the state of the server, a frame whose body copy does
    not fail is handed to the dispatcher and its reply written.  A size
    field of 7 or less only means that no byte is read after the header. *)
Theorem size_field_is_not_checked (c : conn NSt) (l0 l1 l2 l3 l4 l5 l6 : byte)
    (rd1 rd2 : reader) (body : list byte) :
  let reqID := wrap64 (requestCounter c + 1) in
  Read (Reader c) 7 = ([l0; l1; l2; l3; l4; l5; l6], None, rd1) ->
  CopyLimit rd1 (header_size l0 l1 l2 l3 - 7) = (body, None, rd2) ->
  (header_size l0 l1 l2 l3 <= 7 -> body = [] /\ rd2 = rd1)
  /\ exists s' b' derr w' werr,
      Dispatch (server c) ([l5; l6] ++ body) (header_type l4) = Ret s' b' derr
      /\ Write (Writer c) b' = (w', werr)
      /\ serve_iter c
         = let c3 :=
             mkConn s' rd2 w' (closed c) (dead c) reqID
               ((spans c
                 ++ [EvRead reqID (header_type l4) (header_tag l5 l6)
                       ([l5; l6] ++ body)])
                ++ [EvWrite reqID b' werr]) in
           match werr with
           | Some _ => Stop ReplyWrite (die c3)
           | None => Continue c3
           end.
Proof.
  intros reqID Hr Hc. split.
  - intros Hle. rewrite CopyLimit_nothing in Hc by lia.
    injection Hc as <- <-. now split.
  - destruct (Dispatch (server c) ([l5; l6] ++ body) (header_type l4))
      as [s' b' derr |] eqn:Hd;
      [| exfalso; exact (Dispatch_tagged_no_panic _ _ _ _ _ Hd)].
    destruct (Write (Writer c) b') as [w' werr] eqn:Hw.
    exists s', b', derr, w', werr.
    split; [reflexivity | split; [exact Hw |]].
    exact (serve_iter_turn c l0 l1 l2 l3 l4 l5 l6 rd1 rd2 body
             s' b' derr w' werr Hr Hc Hd Hw).
Qed.

End WithHandlers.

End Framing.

(* ------------------------------------------------------------------ *)
(** ** Frames on concrete streams *)

Module FramingRuns.

(** The Tattach frame of scenario 2, 20 bytes, on a versioned session. *)
Lemma header_fields_and_body_Tattach :
  let c := versioned 8192 Tattach_frame in
  let rd1 := [Data (skipn 7 Tattach_frame)] in
  let body := skipn 7 Tattach_frame in
  (header_size Byte.x14 Byte.x00 Byte.x00 Byte.x00 = 20
   /\ header_type Byte.x68 = 104
   /\ header_tag Byte.x01 Byte.x00 = 1)
  /\ Z.of_nat (List.length body) = 20 - 7
  /\ exists rd2 s' b' derr w' werr,
      CopyLimit rd1 (header_size Byte.x14 Byte.x00 Byte.x00 Byte.x00 - 7)
      = (body, None, rd2)
      /\ available rd2 = skipn 13 (available rd1)
      /\ Dispatch (h := Fixture.handlers) (server c)
           ([Byte.x01; Byte.x00] ++ body) 104 = Ret s' b' derr
      /\ Write (Writer c) b' = (w', werr)
      /\ serve_iter (h := Fixture.handlers) c
         = let c3 :=
             mkConn s' rd2 w' false false 2
               (([] ++ [EvRead 2 104 1 ([Byte.x01; Byte.x00] ++ body)])
                ++ [EvWrite 2 b' werr]) in
           match werr with
           | Some _ => Stop ReplyWrite (die c3)
           | None => Continue c3
           end.
Proof.
  intros c rd1 body.
  pose proof (Framing.header_fields_and_body (h := Fixture.handlers) c
                Byte.x14 Byte.x00 Byte.x00 Byte.x00 Byte.x68
                Byte.x01 Byte.x00 rd1 eq_refl) as (H1 & _ & H3).
  split; [exact H1 |].
  apply H3; vm_compute; [discriminate | lia].
Defined.

(** C8.  The body is not always read whole.  The header announces 20
    bytes, so 13 are to follow; three do and the stream ends.  The read of
    the header would have caught this with [n < 7], and the read of the
    body logs its failures as short reads, but [io.Copy] returns nil at the
    end of the stream: the request is dispatched with a body of three
    bytes, its reply written, and the loop goes on. *)
Lemma short_body_is_dispatched :
  header_size Byte.x14 Byte.x00 Byte.x00 Byte.x00 - 7 = 13
  /\ serve_iter (h := Fixture.handlers)
       (versioned 8192
          (le32 20 ++ [byte_of_Z Tattach] ++ le16 1
                ++ [Byte.x00; Byte.x00; Byte.x00]))
     = Continue
         (mkConn (mkServer 8192 true) []
            (mkWriter [] [MarshalRerrorPkt [] 1 "permission denied"])
            false false 2
            [EvRead 2 Tattach 1
               [Byte.x01; Byte.x00; Byte.x00; Byte.x00; Byte.x00];
             EvWrite 2 (MarshalRerrorPkt [] 1 "permission denied") None]).
Proof. split; vm_compute; reflexivity. Qed.

(** A Tattach frame of 20 bytes on a session that negotiated an msize
    of 16. *)
Lemma size_field_is_not_checked_oversize :
  let c := versioned 16 Tattach_frame in
  let body := skipn 7 Tattach_frame in
  (header_size Byte.x14 Byte.x00 Byte.x00 Byte.x00 <= 7 ->
   body = [] /\ @nil segment = [Data body])
  /\ exists s' b' derr w' werr,
      Dispatch (h := Fixture.handlers) (server c)
        ([Byte.x01; Byte.x00] ++ body) (header_type Byte.x68) = Ret s' b' derr
      /\ Write (Writer c) b' = (w', werr)
      /\ serve_iter (h := Fixture.handlers) c
         = let c3 :=
             mkConn s' [] w' false false 2
               (([] ++ [EvRead 2 (header_type Byte.x68)
                          (header_tag Byte.x01 Byte.x00)
                          ([Byte.x01; Byte.x00] ++ body)])
                ++ [EvWrite 2 b' werr]) in
           match werr with
           | Some _ => Stop ReplyWrite (die c3)
           | None => Continue c3
           end.
Proof.
  intros c body.
  exact (Framing.size_field_is_not_checked (h := Fixture.handlers) c
           Byte.x14 Byte.x00 Byte.x00 Byte.x00 Byte.x68 Byte.x01 Byte.x00
           [Data body] [] body eq_refl eq_refl).
Defined.

(** C4, as the spec words it, fails.  After a Tversion that negotiates an
    msize of 16, a Tattach frame of 20 bytes and then a frame whose size
    field is 0 both reach the Tattach handler, which answers each on its
    tag; the connection ends only with the stream. *)
Lemma oversize_and_undersize_frames_dispatched :
  header_size Byte.x14 Byte.x00 Byte.x00 Byte.x00 = 20
  /\ header_size Byte.x00 Byte.x00 Byte.x00 Byte.x00 = 0
  /\ summary
       (serve (h := Fixture.handlers) 4
          (fresh (Tversion_frame 16 ++ Tattach_frame
                    ++ le32 0 ++ [byte_of_Z Tattach] ++ le16 2)))
     = Some (16,
             [Fixture.MarshalRversionPkt NOTAG 16 "9P2000";
              MarshalRerrorPkt [] 1 "permission denied";
              MarshalRerrorPkt [] 2 "permission denied"],
             [1; 1; 2; 2; 3; 3]).
Proof. repeat split; vm_compute; reflexivity. Qed.

End FramingRuns.

(* ------------------------------------------------------------------ *)
(** ** The end of a connection *)

Module Teardown.

Section WithHandlers.

Context {NSt : Type} {h : Handlers NSt}.

(** C7.  The loop of [serve] returns at the first turn in which the read
    of the header gives an error or fewer than seven bytes, the copy of the
    body gives an error, or the write of the reply gives an error, and at no
    other turn: every turn before it met none of the three and went on to
    the next frame, and the connection returned is the one that turn left,
    marked dead, with the stream closed.  An error returned by the
    dispatcher does not end the loop: the buffer is written and [serve]
    goes on from the connection that turn left, neither dead nor closed.
    A connection that is dead at the start is closed without a read.  And
    [serve] always returns, within as many turns as the stream holds
    bytes. *)
Theorem serve_returns_exactly_on_io_errors (c : conn NSt) :
  ((exists why c', serve_iter c = Stop why c')
   <-> header_fails c \/ body_fails c \/ write_fails c)
  /\ (forall why c', serve_iter c = Stop why c' -> dead c' = true)
  /\ (forall l0 l1 l2 l3 l4 l5 l6 rd1 body rd2 s' b' msg w',
         Read (Reader c) 7 = ([l0; l1; l2; l3; l4; l5; l6], None, rd1) ->
         CopyLimit rd1 (header_size l0 l1 l2 l3 - 7) = (body, None, rd2) ->
         Dispatch (server c) ([l5; l6] ++ body) (header_type l4)
         = Ret s' b' (Some msg) ->
         Write (Writer c) b' = (w', None) ->
         exists c',
           serve_iter c = Continue c'
           /\ server c' = s'
           /\ sent (Writer c') = sent (Writer c) ++ [b']
           /\ dead c' = dead c /\ closed c' = closed c
           /\ (dead c = false ->
               forall fuel, serve (S fuel) c = serve fuel c'))
  /\ (exists c',
         serve (S (rd_size (Reader c))) c = Some c'
         /\ dead c' = true /\ closed c' = true)
  /\ (forall fuel c',
         serve fuel c = Some c' -> dead c' = true /\ closed c' = true)
  /\ (dead c = false ->
      exists n cn why c'',
        (n <= rd_size (Reader c))%nat
        /\ after_turns n c = Some cn
        /\ (forall k ck,
              (k < n)%nat -> after_turns k c = Some ck ->
              dead ck = false
              /\ ~ (header_fails ck \/ body_fails ck \/ write_fails ck))
        /\ (header_fails cn \/ body_fails cn \/ write_fails cn)
        /\ serve_iter cn = Stop why c''
        /\ (forall fuel, (n < fuel)%nat -> serve fuel c = Some (Close c''))
        /\ (forall fuel, (fuel <= n)%nat -> serve fuel c = None))
  /\ (dead c = true -> forall fuel, serve fuel c = Some (Close c)).
Proof.
  split; [| split; [| split; [| split; [| split; [| split]]]]].
  - split.
    + intros (why & c' & Hs). now apply serve_iter_Stop in Hs.
    + intros Hf. destruct (serve_iter c) as [c1 | why c1] eqn:Hs.
      * apply serve_iter_Continue in Hs. tauto.
      * now exists why, c1.
  - intros why c' Hs. now apply serve_iter_Stop in Hs.
  - intros l0 l1 l2 l3 l4 l5 l6 rd1 body rd2 s' b' msg w' Hr Hc Hd Hw.
    pose proof (serve_iter_turn c l0 l1 l2 l3 l4 l5 l6 rd1 rd2 body
                  s' b' (Some msg) w' None Hr Hc Hd Hw) as Hs.
    cbv zeta in Hs. eexists. split; [exact Hs |].
    cbn [server Writer dead closed].
    split; [reflexivity |]. split; [now apply Write_sent |].
    split; [reflexivity |]. split; [reflexivity |].
    intros Hdead fuel. unfold serve. cbn [serve_loop].
    rewrite Hs, Hdead. reflexivity.
  - destruct (serve_loop_terminates (S (rd_size (Reader c))) c) as (c' & Hl & Hd);
      [lia |].
    exists (Close c'). unfold serve. rewrite Hl. now repeat split.
  - intros fuel c'. unfold serve.
    destruct (serve_loop fuel c) as [c1 |] eqn:Hl; [| discriminate].
    intros [= <-]. apply serve_loop_dead in Hl. now split.
  - intros Hdead.
    destruct (serve_loop_first_stop (S (rd_size (Reader c))) c) as
      (n & cn & why & c'' & Hn & Hafter & Hbefore & Hcond & Hstop & Hret & Hnot);
      [lia | exact Hdead |].
    exists n, cn, why, c''.
    split; [exact Hn |]. split; [exact Hafter |]. split; [exact Hbefore |].
    split; [exact Hcond |]. split; [exact Hstop |]. split.
    + intros fuel Hf. unfold serve. now rewrite (Hret fuel Hf).
    + intros fuel Hf. unfold serve. now rewrite (Hnot fuel Hf).
  - intros Hdead fuel. unfold serve.
    destruct fuel; cbn [serve_loop]; now rewrite Hdead.
Qed.

(** C10.  The header is read with one [Read]: when the bytes at the head of
    the stream are fewer than seven, that call returns them with no error,
    and [serve] marks the connection dead and returns.  Nothing is
    dispatched or written, and what the stream holds next, the rest of the
    header included, is left unread. *)
Theorem split_header_kills_connection (c : conn NSt) (bs : list byte)
    (r' : reader) (fuel : nat) :
  dead c = false ->
  Reader c = Data bs :: r' ->
  (List.length bs < 7)%nat ->
  Read (Reader c) 7 = (bs, None, r')
  /\ serve (S fuel) c
     = Some (mkConn (server c) r' (Writer c) true true
               (wrap64 (requestCounter c + 1)) (spans c)).
Proof.
  intros Hd Hr Hlen.
  assert (Hread : Read (Reader c) 7 = (bs, None, r')).
  { rewrite Hr. unfold Read.
    destruct (Nat.leb_spec (List.length bs) 7); [reflexivity | lia]. }
  split; [exact Hread |].
  unfold serve. cbn [serve_loop]. rewrite Hd.
  unfold serve_iter. rewrite Hread.
  destruct bs as [| l0 [| l1 [| l2 [| l3 [| l4 [| l5 [| l6 bs]]]]]]];
    try reflexivity.
  simpl in Hlen. lia.
Qed.

End WithHandlers.

(** A Tattach before Tversion and then the Tversion, on a fresh connection
    of the fixture: the dispatcher returns an error for the first, the loop
    writes the Rerror and goes on; the second is answered; the third turn
    finds the end of the stream and returns. *)
Lemma serve_goes_on_after_dispatch_error :
  let c := fresh (Tattach_frame ++ Tversion_frame 8192) in
  (exists n cn why c'',
      (n <= rd_size (Reader c))%nat
      /\ after_turns (h := Fixture.handlers) n c = Some cn
      /\ (forall k ck,
            (k < n)%nat -> after_turns (h := Fixture.handlers) k c = Some ck ->
            dead ck = false
            /\ ~ (header_fails ck
                  \/ body_fails ck
                  \/ write_fails (h := Fixture.handlers) ck))
      /\ (header_fails cn \/ body_fails cn
          \/ write_fails (h := Fixture.handlers) cn)
      /\ serve_iter (h := Fixture.handlers) cn = Stop why c''
      /\ (forall fuel, (n < fuel)%nat ->
            serve (h := Fixture.handlers) fuel c = Some (Close c''))
      /\ (forall fuel, (fuel <= n)%nat ->
            serve (h := Fixture.handlers) fuel c = None))
  /\ summary (serve (h := Fixture.handlers) 2 c) = None
  /\ summary (serve (h := Fixture.handlers) 3 c)
     = Some (8192,
             [MarshalRerrorPkt [] 1
                "Dispatch: Tattach not allowed before Tversion";
              Fixture.MarshalRversionPkt NOTAG 8192 "9P2000"],
             [1; 1; 2; 2]).
Proof.
  intros c. split; [| split; vm_compute; reflexivity].
  destruct (serve_returns_exactly_on_io_errors (h := Fixture.handlers) c)
    as (_ & _ & _ & _ & _ & Hloop & _).
  exact (Hloop eq_refl).
Defined.

(** A whole Tversion frame that arrives as four bytes and then the rest. *)
Lemma split_header_kills_Tversion :
  Read (Reader (new_conn 0
                  [Data (firstn 4 (Tversion_frame 8192));
                   Data (skipn 4 (Tversion_frame 8192))]
                  (mkWriter [] []))) 7
  = (firstn 4 (Tversion_frame 8192), None,
     [Data (skipn 4 (Tversion_frame 8192))])
  /\ serve (h := Fixture.handlers) 1
       (new_conn 0
          [Data (firstn 4 (Tversion_frame 8192));
           Data (skipn 4 (Tversion_frame 8192))]
          (mkWriter [] []))
     = Some (mkConn (mkServer 0 false)
               [Data (skipn 4 (Tversion_frame 8192))] (mkWriter [] [])
               true true 1 []).
Proof.
  exact (split_header_kills_connection (h := Fixture.handlers)
           (new_conn 0
              [Data (firstn 4 (Tversion_frame 8192));
               Data (skipn 4 (Tversion_frame 8192))]
              (mkWriter [] []))
           (firstn 4 (Tversion_frame 8192))
           [Data (skipn 4 (Tversion_frame 8192))] 0
           eq_refl eq_refl ltac:(vm_compute; lia)).
Defined.

End Teardown.

(* ------------------------------------------------------------------ *)
(** ** The order of reads and writes on a connection *)

Module Order.

Lemma turns_ids (lo : Z) (evs : list event) :
  turns lo evs -> Forall (fun ev => lo < event_id ev) evs.
Proof.
  induction 1 as [lo | lo t tag b reply e | lo t tag b reply evs _ IH].
  - constructor.
  - repeat constructor; simpl; lia.
  - repeat constructor; simpl; try lia.
    eapply Forall_impl; [| exact IH]. simpl. intros ev Hev. lia.
Qed.

(** Around a write: what comes before belongs to requests up to this one,
    what comes after to later requests. *)
Lemma turns_around_write (lo : Z) (evs : list event) :
  turns lo evs ->
  forall pre post id reply err,
    evs = pre ++ EvWrite id reply err :: post ->
    (forall ev, In ev pre -> event_id ev <= id)
    /\ (forall ev, In ev post -> id < event_id ev).
Proof.
  induction 1 as [lo | lo t tag b reply0 e | lo t tag b reply0 evs Ht IH];
    intros pre post id reply err Heq.
  - destruct pre; discriminate.
  - destruct pre as [| a [| a' pre]]; try discriminate.
    + injection Heq as <- <- _ _ <-. split.
      * intros ev [<- | []]. simpl. lia.
      * intros ev [].
    + injection Heq as _ _ Heq. destruct pre; discriminate.
  - destruct pre as [| a [| a' pre]]; try discriminate.
    + injection Heq as <- <- _ _ <-. split.
      * intros ev [<- | []]. simpl. lia.
      * intros ev Hev. apply turns_ids in Ht. rewrite Forall_forall in Ht.
        now apply Ht.
    + injection Heq as <- <- Heq.
      destruct (IH _ _ _ _ _ Heq) as [Hpre Hpost].
      assert (Hid : lo + 1 < id).
      { apply turns_ids in Ht. rewrite Forall_forall in Ht.
        apply (Ht (EvWrite id reply err)). rewrite Heq.
        apply in_elt. }
      split; [| exact Hpost].
      intros ev [<- | [<- | Hev]]; simpl; try lia. now apply Hpre.
Qed.

(** Around a read: every request read before has had its reply written,
    and what comes after belongs to this request or later ones. *)
Lemma turns_around_read (lo : Z) (evs : list event) :
  turns lo evs ->
  forall pre post id t tag b,
    evs = pre ++ EvRead id t tag b :: post ->
    (forall ev, In ev pre -> event_id ev < id)
    /\ (forall ev, In ev post -> id <= event_id ev)
    /\ (forall ido to tago bo,
           In (EvRead ido to tago bo) pre ->
           exists ro, In (EvWrite ido ro None) pre).
Proof.
  induction 1 as [lo | lo t0 tag0 b0 reply0 e | lo t0 tag0 b0 reply0 evs Ht IH];
    intros pre post id t tag b Heq.
  - destruct pre; discriminate.
  - destruct pre as [| a [| a' pre]]; try discriminate.
    + injection Heq as <- _ _ _ <-. repeat split.
      * intros ev [].
      * intros ev [<- | []]. simpl. lia.
      * intros ? ? ? ? [].
    + injection Heq as _ _ Heq. destruct pre; discriminate.
  - destruct pre as [| a [| a' pre]]; try discriminate.
    + injection Heq as <- _ _ _ <-. repeat split.
      * intros ev [].
      * intros ev [<- | Hev]; [simpl; lia |].
        apply turns_ids in Ht. rewrite Forall_forall in Ht.
        specialize (Ht _ Hev). lia.
      * intros ? ? ? ? [].
    + injection Heq as <- <- Heq.
      destruct (IH _ _ _ _ _ _ Heq) as (Hpre & Hpost & Hrep).
      assert (Hid : lo + 1 < id).
      { apply turns_ids in Ht. rewrite Forall_forall in Ht.
        apply (Ht (EvRead id t tag b)). rewrite Heq. apply in_elt. }
      repeat split.
      * intros ev [<- | [<- | Hev]]; simpl; try lia. now apply Hpre.
      * exact Hpost.
      * intros ido to tago bo [Hin | [Hin | Hin]]; try discriminate.
        -- injection Hin as <- _ _ _. exists reply0. right. now left.
        -- destruct (Hrep _ _ _ _ Hin) as [ro Hro].
           exists ro. right. right. exact Hro.
Qed.

Section WithHandlers.

Context {NSt : Type} {h : Handlers NSt}.

(** The spans a run of the loop adds are turns numbered from the request
    counter, as long as the counter does not wrap. *)
Lemma serve_loop_turns (fuel : nat) (c c' : conn NSt) :
  0 <= requestCounter c ->
  requestCounter c + Z.of_nat fuel < 2 ^ 64 ->
  serve_loop fuel c = Some c' ->
  exists evs, spans c' = spans c ++ evs /\ turns (requestCounter c) evs.
Proof.
  revert c. induction fuel as [| fuel IH]; intros c H0 Hlt; simpl.
  - destruct (dead c); [| discriminate].
    intros [= <-]. exists []. rewrite app_nil_r. split; [reflexivity | constructor].
  - destruct (dead c).
    { intros [= <-]. exists []. rewrite app_nil_r.
      split; [reflexivity | constructor]. }
    assert (Hid : wrap64 (requestCounter c + 1) = requestCounter c + 1)
      by (unfold wrap64; apply Z.mod_small; lia).
    destruct (serve_iter_inv c) as
      [[_ [rd1 E]] |
       (l0 & l1 & l2 & l3 & l4 & l5 & l6 & rd1 & body & cerr & rd2 & Hr & Hc
        & [(e & -> & E) | (-> & s' & b' & derr & w' & werr & Hd & Hw & E)])];
      rewrite E; clear E.
    + intros [= <-]. exists []. rewrite app_nil_r.
      split; [reflexivity | constructor].
    + intros [= <-]. exists []. rewrite app_nil_r.
      split; [reflexivity | constructor].
    + cbv zeta. rewrite Hid. destruct werr as [e |].
      * intros [= <-]. cbn [die spans]. rewrite <- app_assoc.
        eexists. split; [reflexivity |]. simpl. apply turns_last.
      * intros Hl. apply IH in Hl; cbn [requestCounter spans] in *; try lia.
        destruct Hl as (evs & Hsp & Ht).
        exists (EvRead (requestCounter c + 1) (header_type l4)
                  (header_tag l5 l6) ([l5; l6] ++ body)
                  :: EvWrite (requestCounter c + 1) b' None :: evs).
        split.
        -- rewrite Hsp, <- !app_assoc. reflexivity.
        -- now apply turns_cons.
Qed.

(** C2.  On a connection served from its start, the spans are turns: a
    frame is read only after the reply to every request read before it has
    been written.  So once the reply to a Tflush has been written, nothing
    written afterwards answers the request its oldtag names, or any other
    request read before the Tflush: the later writes answer later frames. *)
Theorem no_reply_to_earlier_request_after_Rflush (c c' : conn NSt) (fuel : nat) :
  spans c = [] ->
  requestCounter c = 0 ->
  Z.of_nat fuel < 2 ^ 64 ->
  serve fuel c = Some c' ->
  (forall pre post id t tag b,
      spans c' = pre ++ EvRead id t tag b :: post ->
      forall ido to tago bo,
        In (EvRead ido to tago bo) pre ->
        (exists ro, In (EvWrite ido ro None) pre)
        /\ (forall ro eo, ~ In (EvWrite ido ro eo) post))
  /\ (forall pre post idf tagf bf rflush,
         spans c' = pre ++ EvWrite idf rflush None :: post ->
         In (EvRead idf Tflush tagf bf) pre ->
         forall ido to oldtag bo,
           In (EvRead ido to oldtag bo) pre ->
           (forall ro eo, ~ In (EvWrite ido ro eo) post)
           /\ (forall ev, In ev post -> idf < event_id ev)).
Proof.
  intros Hsp Hrc Hfuel Hs. unfold serve in Hs.
  destruct (serve_loop fuel c) as [c1 |] eqn:Hl; [| discriminate].
  injection Hs as <-. cbn [Close spans].
  apply serve_loop_turns in Hl; try lia.
  destruct Hl as (evs & -> & Ht). rewrite Hsp, Hrc in *. simpl.
  split.
  - intros pre post id t tag b Heq ido to tago bo Hin.
    destruct (turns_around_read _ _ Ht _ _ _ _ _ _ Heq) as (Hpre & Hpost & Hrep).
    split; [now apply (Hrep ido to tago bo) |].
    intros ro eo Hw.
    specialize (Hpre _ Hin). specialize (Hpost _ Hw). simpl in *. lia.
  - intros pre post idf tagf bf rflush Heq _ ido to oldtag bo Hin.
    destruct (turns_around_write _ _ Ht _ _ _ _ _ Heq) as (Hpre & Hpost).
    split; [| exact Hpost].
    intros ro eo Hw.
    specialize (Hpre _ Hin). specialize (Hpost _ Hw). simpl in *. lia.
Qed.

End WithHandlers.

(** Scenario 6 on the fixture: Tversion, a Tread with tag 5, then a Tflush
    of tag 5 with tag 6.  The reply on tag 5 is written before the Rflush on
    tag 6, and nothing after it. *)
Lemma flush_scenario :
  let c := fresh (Tversion_frame 8192 ++ Tread_frame ++ Tflush_frame) in
  let c' := match serve (h := Fixture.handlers) 4 c with
            | Some x => x
            | None => c
            end in
  summary (Some c')
  = Some (8192,
          [Fixture.MarshalRversionPkt NOTAG 8192 "9P2000";
           MarshalRerrorPkt [] 5 "permission denied";
           le32 7 ++ [byte_of_Z Rflush] ++ le16 6],
          [1; 1; 2; 2; 3; 3])
  /\ (forall pre post id t tag b,
         spans c' = pre ++ EvRead id t tag b :: post ->
         forall ido to tago bo,
           In (EvRead ido to tago bo) pre ->
           (exists ro, In (EvWrite ido ro None) pre)
           /\ (forall ro eo, ~ In (EvWrite ido ro eo) post))
  /\ (forall pre post idf tagf bf rflush,
         spans c' = pre ++ EvWrite idf rflush None :: post ->
         In (EvRead idf Tflush tagf bf) pre ->
         forall ido to oldtag bo,
           In (EvRead ido to oldtag bo) pre ->
           (forall ro eo, ~ In (EvWrite ido ro eo) post)
           /\ (forall ev, In ev post -> idf < event_id ev)).
Proof.
  intros c c'. split; [vm_compute; reflexivity |].
  exact (no_reply_to_earlier_request_after_Rflush (h := Fixture.handlers)
           c c' 4 eq_refl eq_refl ltac:(vm_compute; reflexivity) eq_refl).
Defined.

End Order.

(* ------------------------------------------------------------------ *)
(** ** The backoff of the acceptor *)

Module Backoff.

Import Listener.

Lemma backoff_0 : backoff 0 = 5 * Millisecond.
Proof. reflexivity. Qed.





Section Acceptor.

Context {C : Type}.



End Acceptor.

(** Ten temporary failures, a success, one more failure and a fatal error:
    the delays in milliseconds, and the error returned. *)
Example backoff_run :
  let tmp := mkAcceptError "accept: too many open files" true true in
  let fatal := mkAcceptError "use of closed network connection" true false in
  Serve (repeat (AcceptFailed tmp) 10
           ++ [Accepted 1%nat; AcceptFailed tmp; AcceptFailed fatal])
  = (map (fun ms => Sleep (ms * Millisecond))
         [5; 10; 20; 40; 80; 160; 320; 640; 1000; 1000]
       ++ [Spawn 1%nat; Sleep (5 * Millisecond); CloseListener],
     Some fatal).
Proof. reflexivity. Qed.

End Backoff.

(* ================================================================== *)
(** * Further properties of the code *)

(* ------------------------------------------------------------------ *)
(** ** The dispatcher called on its own *)

Module DispatchMore.

Import Frames.

Section WithHandlers.

Context {NSt : Type} {h : Handlers NSt}.

(** X1.  The gate indexes the buffer without a check of its length.  On a
    session that is not versioned, a request that is not a Tversion and
    whose buffer holds fewer than the two bytes of a tag makes [Dispatch]
    panic on [d[0]] or [d[1]]: no reply is built, no error is returned, and
    no handler is asked, whichever handlers the server has. *)
Theorem gate_panics_on_short_buffer (s : Server NSt) (b : Buffer) (t : MType) :
  Versioned s = false ->
  t <> Tversion ->
  (List.length b < 2)%nat ->
  Dispatch s b t = Panic.
Proof.
  intros Hv Ht Hlen. unfold Dispatch.
  apply Z.eqb_neq in Ht. rewrite Ht, Hv. simpl.
  destruct b as [| d0 [| d1 rest]]; try reflexivity.
  simpl in Hlen. lia.
Qed.

(** X2.  Before Tversion no handler is reached.  On a server that is not
    versioned, a run of requests none of which is a Tversion, each with its
    tag in the buffer, is answered by the gate alone: every outcome is the
    Rerror on the request's tag, the server never changes, and the run is
    the same whatever the handlers are. *)
Theorem no_handler_before_Tversion (s : Server NSt)
    (reqs : list (Buffer * MType)) :
  Versioned s = false ->
  Forall (fun req => snd req <> Tversion /\ (2 <= List.length (fst req))%nat)
         reqs ->
  Dispatch_seq s reqs = map (gate_outcome s) reqs
  /\ final_server s (Dispatch_seq s reqs) = s.
Proof.
  intros Hv Hall.
  assert (Hseq : Dispatch_seq s reqs = map (gate_outcome s) reqs).
  { induction Hall as [| [b t] reqs [Ht Hlen] _ IH]; simpl; [reflexivity |].
    destruct b as [| d0 [| d1 rest]]; simpl in Hlen; try lia.
    simpl in Ht. rewrite (Dispatch_gate s d0 d1 rest t Ht Hv).
    now rewrite IH. }
  split; [exact Hseq |].
  rewrite Hseq. clear Hseq Hall.
  unfold final_server.
  induction reqs as [| [b t] reqs IH]; simpl; [reflexivity |].
  destruct b as [| d0 [| d1 rest]]; exact IH.
Qed.

End WithHandlers.

(** A Tattach with one byte in the buffer, on a fresh server of the
    fixture. *)
Lemma gate_panics_on_short_buffer_fixture :
  Dispatch (h := Fixture.handlers) (mkServer 0 false) [Byte.x01] Tattach
  = Panic.
Proof.
  apply (gate_panics_on_short_buffer (h := Fixture.handlers));
    [reflexivity | vm_compute; discriminate | simpl; lia].
Defined.

(** A Tattach and a Tauth on a fresh server of the fixture. *)
Lemma no_handler_before_Tversion_fixture :
  Dispatch_seq (h := Fixture.handlers) (mkServer 0 false)
    [(skipn 5 Tattach_frame, Tattach); (skipn 5 Tauth_frame, Tauth)]
  = map (gate_outcome (mkServer 0 false))
      [(skipn 5 Tattach_frame, Tattach); (skipn 5 Tauth_frame, Tauth)]
  /\ final_server (mkServer 0 false)
       (Dispatch_seq (h := Fixture.handlers) (mkServer 0 false)
          [(skipn 5 Tattach_frame, Tattach); (skipn 5 Tauth_frame, Tauth)])
     = mkServer 0 false.
Proof.
  apply (no_handler_before_Tversion (h := Fixture.handlers));
    [reflexivity |].
  repeat constructor; vm_compute; try discriminate; lia.
Defined.

End DispatchMore.

(* ------------------------------------------------------------------ *)
(** ** A stream of whole frames *)

Module FrameStream.

Import Frames.

Lemma holds_Read_header (r : reader) (l0 l1 l2 l3 l4 l5 l6 : byte)
    (rest : list byte) :
  holds r ([l0; l1; l2; l3; l4; l5; l6] ++ rest) ->
  exists rd1,
    Read r 7 = ([l0; l1; l2; l3; l4; l5; l6], None, rd1) /\ holds rd1 rest.
Proof.
  intros [-> | [Hnil _]]; [| discriminate Hnil].
  unfold Read. cbn [List.length app].
  destruct rest as [| x rest].
  - exists []. split; [reflexivity | right; now split].
  - exists [Data (x :: rest)]. split; [reflexivity | now left].
Qed.

Lemma CopyLimit_one_piece (bs : list byte) (n : Z) :
  0 < n ->
  CopyLimit [Data bs] n
  = if Z.of_nat (List.length bs) <=? n then (bs, None, [])
    else (firstn (Z.to_nat n) bs, None, [Data (skipn (Z.to_nat n) bs)]).
Proof.
  intros Hn. simpl.
  destruct (Z.leb_spec n 0) as [H0 | _]; [lia |].
  destruct (Z.of_nat (List.length bs) <=? n); [| reflexivity].
  destruct (n - Z.of_nat (List.length bs) <=? 0);
    now rewrite app_nil_r.
Qed.

Lemma holds_CopyLimit_body (r : reader) (body rest : list byte) :
  holds r (body ++ rest) ->
  exists rd2,
    CopyLimit r (Z.of_nat (List.length body)) = (body, None, rd2)
    /\ holds rd2 rest.
Proof.
  intros Hh. destruct body as [| x body].
  - exists r. split; [| exact Hh].
    apply Framing.CopyLimit_nothing. simpl. lia.
  - destruct Hh as [-> | [Hnil _]]; [| discriminate Hnil].
    remember (x :: body) as bs eqn:Ebs.
    assert (Hpos : 0 < Z.of_nat (List.length bs)) by (subst bs; simpl; lia).
    rewrite (CopyLimit_one_piece _ _ Hpos), length_app.
    destruct rest as [| y rest].
    + exists []. rewrite app_nil_r. cbn [List.length].
      destruct (Z.leb_spec (Z.of_nat (List.length bs + 0))
                           (Z.of_nat (List.length bs))) as [_ | Hgt]; [| lia].
      split; [reflexivity | right; now split].
    + exists [Data (y :: rest)].
      destruct (Z.leb_spec
                  (Z.of_nat (List.length bs + List.length (y :: rest)))
                  (Z.of_nat (List.length bs))) as [Hle | _];
        [simpl in Hle; lia |].
      rewrite Nat2Z.id.
      rewrite firstn_app, firstn_all, Nat.sub_diag, firstn_O, app_nil_r.
      rewrite skipn_app, skipn_all, Nat.sub_diag, skipn_O.
      split; [reflexivity | now left].
Qed.

Lemma concat_encode_cons (f : frame) (fs : list frame) :
  List.concat (map encode (f :: fs))
  = [byte_of_Z (frame_size f); byte_of_Z (Z.shiftr (frame_size f) 8);
     byte_of_Z (Z.shiftr (frame_size f) 16);
     byte_of_Z (Z.shiftr (frame_size f) 24);
     f_type f; f_tag0 f; f_tag1 f]
    ++ (f_body f ++ List.concat (map encode fs)).
Proof.
  cbn [map List.concat]. unfold encode at 1. unfold le32.
  reflexivity.
Qed.

Lemma header_size_le32 (sz : Z) :
  0 <= sz < 2 ^ 32 ->
  header_size (byte_of_Z sz) (byte_of_Z (Z.shiftr sz 8))
              (byte_of_Z (Z.shiftr sz 16)) (byte_of_Z (Z.shiftr sz 24)) = sz.
Proof.
  intros Hsz. rewrite header_size_value. apply le32_read. exact Hsz.
Qed.

Section WithHandlers.

Context {NSt : Type} {h : Handlers NSt}.

Lemma serve_loop_at_end (c : conn NSt) (fuel : nat) :
  dead c = false ->
  holds (Reader c) [] ->
  serve_loop (S fuel) c
  = Some (mkConn (server c) [] (Writer c) (closed c) true
            (wrap64 (requestCounter c + 1)) (spans c)).
Proof.
  intros Hd Hh. cbn [serve_loop]. rewrite Hd. unfold serve_iter.
  destruct Hh as [-> | [_ ->]]; reflexivity.
Qed.

Lemma serve_loop_frames (fs : list frame) (c : conn NSt) :
  dead c = false ->
  script (Writer c) = [] ->
  holds (Reader c) (List.concat (map encode fs)) ->
  Forall (fun f => frame_size f < 2 ^ 32) fs ->
  exists c',
    serve_loop (S (List.length fs)) c = Some c'
    /\ sent (Writer c')
       = sent (Writer c) ++ replies (Dispatch_seq (server c) (map request fs))
    /\ server c'
       = final_server (server c) (Dispatch_seq (server c) (map request fs))
    /\ Reader c' = [] /\ dead c' = true /\ closed c' = closed c.
Proof.
  revert c. induction fs as [| f fs IH]; intros c Hd Hw Hh Hall.
  - eexists. split; [apply (serve_loop_at_end c 0 Hd Hh) |].
    cbn [sent Writer server Reader dead closed requestCounter].
    simpl. rewrite app_nil_r. repeat split.
  - inversion Hall as [| f' fs' Hf Hall']; subst f' fs'.
    rewrite concat_encode_cons in Hh.
    destruct (holds_Read_header _ _ _ _ _ _ _ _ _ Hh) as (rd1 & Hr & Hh1).
    destruct (holds_CopyLimit_body _ _ _ Hh1) as (rd2 & Hc & Hh2).
    assert (Hsz : 0 <= frame_size f < 2 ^ 32)
      by (unfold frame_size in *; lia).
    assert (Hn : header_size (byte_of_Z (frame_size f))
                   (byte_of_Z (Z.shiftr (frame_size f) 8))
                   (byte_of_Z (Z.shiftr (frame_size f) 16))
                   (byte_of_Z (Z.shiftr (frame_size f) 24)) - 7
                 = Z.of_nat (List.length (f_body f))).
    { rewrite header_size_le32 by exact Hsz. unfold frame_size. lia. }
    rewrite <- Hn in Hc.
    destruct (Dispatch (server c) ([f_tag0 f; f_tag1 f] ++ f_body f)
                       (header_type (f_type f)))
      as [s' b' e |] eqn:Hdis;
      [| exfalso; exact (Dispatch_tagged_no_panic _ _ _ _ _ Hdis)].
    assert (Hwr : Write (Writer c) b'
                  = (mkWriter [] (sent (Writer c) ++ [b']), None))
      by (unfold Write; now rewrite Hw).
    pose proof (serve_iter_turn c _ _ _ _ _ _ _ rd1 rd2 (f_body f)
                  s' b' e _ None Hr Hc Hdis Hwr) as Hturn.
    cbv beta iota zeta in Hturn.
    match type of Hturn with
    | serve_iter c = Continue ?c3 =>
        destruct (IH c3) as (c' & Hl & Hsent & Hsrv & Hrd & Hdead & Hcl);
          [exact Hd | reflexivity | exact Hh2 | exact Hall' |]
    end.
    exists c'. split.
    + cbn [List.length]. cbn [serve_loop]. rewrite Hd, Hturn. exact Hl.
    + cbn [map Dispatch_seq]. unfold request at 1 3. cbn [fst snd].
      rewrite Hdis.
      cbn [sent Writer server closed] in Hsent, Hsrv, Hcl.
      repeat split; try assumption.
      rewrite Hsent, <- app_assoc. reflexivity.
Qed.

(** X3.  A client that sends whole frames, as one piece of the stream and
    with nothing after the last, is served frame by frame: [serve] returns
    after as many turns as there are frames and one failed read, having
    written, in the order of the frames, exactly the buffers that the
    successive calls of [Dispatch] left, each call starting from the server
    the one before left.  The stream is then used up, the connection dead
    and closed. *)
Theorem serve_whole_frames (c : conn NSt) (fs : list frame) :
  dead c = false ->
  script (Writer c) = [] ->
  Reader c = [Data (List.concat (map encode fs))] ->
  Forall (fun f => frame_size f < 2 ^ 32) fs ->
  exists c',
    serve (S (List.length fs)) c = Some c'
    /\ sent (Writer c')
       = sent (Writer c) ++ replies (Dispatch_seq (server c) (map request fs))
    /\ server c'
       = final_server (server c) (Dispatch_seq (server c) (map request fs))
    /\ Reader c' = [] /\ dead c' = true /\ closed c' = true.
Proof.
  intros Hd Hw Hr Hall.
  destruct (serve_loop_frames fs c Hd Hw) as
    (c' & Hl & Hsent & Hsrv & Hrd & Hdead & _);
    [left; exact Hr | exact Hall |].
  exists (Close c'). unfold serve. rewrite Hl.
  cbn [option_map Close sent Writer server Reader dead closed].
  now repeat split.
Qed.

End WithHandlers.

(** A Tversion, a Twalk and a Tclunk sent in one piece to the fixture. *)
Lemma serve_whole_frames_fixture :
  let version :=
    mkFrame (byte_of_Z Tversion) Byte.xff Byte.xff
            (skipn 7 (Tversion_frame 8192)) in
  let fs := [version; Twalk_example; Tclunk_example] in
  let c := fresh (List.concat (map encode fs)) in
  exists c',
    serve (h := Fixture.handlers) 4 c = Some c'
    /\ sent (Writer c')
       = [] ++ replies (Dispatch_seq (h := Fixture.handlers) (server c)
                          (map request fs))
    /\ server c'
       = final_server (server c)
           (Dispatch_seq (h := Fixture.handlers) (server c) (map request fs))
    /\ Reader c' = [] /\ dead c' = true /\ closed c' = true.
Proof.
  intros version fs c.
  apply (serve_whole_frames (h := Fixture.handlers) c fs);
    [reflexivity | reflexivity | reflexivity |].
  repeat constructor; vm_compute; reflexivity.
Defined.

End FrameStream.

(* ------------------------------------------------------------------ *)
(** ** The acceptor: when it returns, what it starts, how long it sleeps *)

Module Accepting.

Import Listener Manage.

Section Acceptor.

Context {C : Type}.






Lemma next_delay_range (d : Duration) :
  d = 0 \/ 5 * Millisecond <= d <= 1 * Second ->
  5 * Millisecond <= next_delay d <= 1 * Second.
Proof.
  unfold next_delay, Second, Millisecond. intros Hd.
  destruct (Z.eqb_spec d 0) as [-> | Hne].
  - simpl. lia.
  - rewrite wrap_int64_small by lia.
    destruct (Z.gtb_spec (d * 2) (1 * (1000 * 1000000))); lia.
Qed.

(** X5.  Whatever [Accept] returns and in whatever order, every sleep of
    the loop lasts at least 5 ms and at most one second: the doubling never
    overflows the 64-bit duration and a success in between only restarts
    the sequence. *)
Theorem Serve_sleeps_bounded (accepts : list (accepted C)) :
  Forall (fun d => 5 * Millisecond <= d <= 1 * Second)
         (sleeps (fst (Serve accepts))).
Proof.
  unfold Serve.
  assert (H : forall d, d = 0 \/ 5 * Millisecond <= d <= 1 * Second ->
                        Forall (fun d => 5 * Millisecond <= d <= 1 * Second)
                               (sleeps (fst (Serve_loop accepts d)))).
  { induction accepts as [| [rwc | e] accepts IH]; intros d Hd; simpl.
    - constructor.
    - specialize (IH 0 (or_introl eq_refl)).
      destruct (Serve_loop accepts 0) as [acts r]. exact IH.
    - destruct (temporary e); [| constructor].
      pose proof (next_delay_range d Hd) as Hn.
      specialize (IH (next_delay d) (or_intror Hn)).
      destruct (Serve_loop accepts (next_delay d)) as [acts r].
      simpl. constructor; assumption. }
  apply H. now left.
Qed.

End Acceptor.

End Accepting.

(* ------------------------------------------------------------------ *)
(** ** The listener: tracked listeners, shutdown, options, logging *)

Module Managing.

Import Listener Manage.

Section WithBackend.

Context {NSt : Type}.

Lemma track_spec (l : NetListener NSt) (ln : ListenerId) (add : bool) :
  NoDup (tracked l) ->
  NoDup (tracked (trackNetListener l ln add))
  /\ (In ln (tracked (trackNetListener l ln add)) <-> add = true)
  /\ (forall ln', ln' <> ln ->
        (In ln' (tracked (trackNetListener l ln add)) <-> In ln' (tracked l))).
Proof.
  intros Hnd. unfold trackNetListener, tracked in *.
  destruct (listeners l) as [m |]; destruct add;
    cbn [set_listeners listeners].
  - split; [now apply set_add_nodup | split].
    + split; [reflexivity |]. intros _. apply set_add_iff. now left.
    + intros ln' Hne. rewrite set_add_iff. tauto.
  - split; [now apply set_remove_nodup | split].
    + split; [| discriminate]. intros Hin.
      apply set_remove_iff in Hin; [| exact Hnd]. tauto.
    + intros ln' Hne. rewrite set_remove_iff by exact Hnd. tauto.
  - split; [apply set_add_nodup; constructor | split].
    + split; [reflexivity |]. intros _. apply set_add_iff. now left.
    + intros ln' Hne. rewrite set_add_iff. simpl. tauto.
  - split; [constructor | split].
    + split; [intros [] | discriminate].
    + intros ln' Hne. simpl. tauto.
Qed.

(** X6.  [trackNetListener] keeps [listeners] a set.  Adding makes the map
    non-nil and the listener tracked, once, however often it is added;
    removing leaves it untracked, also when it was not tracked or the map
    was nil; and neither touches the tracking of another listener. *)
Theorem trackNetListener_tracks (l : NetListener NSt) (ln : ListenerId)
    (add : bool) :
  NoDup (tracked l) ->
  let l' := trackNetListener l ln add in
  listeners l' <> None
  /\ NoDup (tracked l')
  /\ (In ln (tracked l') <-> add = true)
  /\ (forall ln', ln' <> ln -> (In ln' (tracked l') <-> In ln' (tracked l)))
  /\ Trace l' = Trace l.
Proof.
  intros Hnd l'. subst l'.
  destruct (track_spec l ln add Hnd) as (Hnd' & Hin & Hoth).
  split; [| split; [exact Hnd' | split; [exact Hin | split; [exact Hoth |]]]].
  - unfold trackNetListener. destruct add; discriminate.
  - unfold trackNetListener. destruct add; reflexivity.
Qed.

Lemma close_each_spec (Close : ListenerId -> error) (order : list ListenerId) :
  forall (m : set ListenerId) (err : error) (closed : list ListenerId),
    NoDup m ->
    let '(m', err', closed') := close_each Close order m err closed in
    closed' = closed ++ order
    /\ NoDup m'
    /\ (forall x, In x m' <-> In x m /\ ~ In x order)
    /\ err' = match err with
              | Some e => Some e
              | None =>
                  match find (fun x => match Close x with
                                       | Some _ => true
                                       | None => false
                                       end) order with
                  | Some x => Close x
                  | None => None
                  end
              end.
Proof.
  induction order as [| ln order IH]; intros m err closed Hm; simpl.
  - rewrite app_nil_r.
    split; [reflexivity | split; [exact Hm | split]];
      [intros x; tauto | now destruct err].
  - specialize (IH (set_remove Nat.eq_dec ln m)
                   (match Close ln, err with
                    | Some e, None => Some e
                    | _, _ => err
                    end)
                   (closed ++ [ln]) (set_remove_nodup Nat.eq_dec ln Hm)).
    destruct (close_each Close order (set_remove Nat.eq_dec ln m) _ _)
      as [[m' err'] closed'].
    destruct IH as (Hcl & Hnd & Hin & Herr).
    split; [| split; [exact Hnd | split]].
    + rewrite Hcl, <- app_assoc. reflexivity.
    + intros x. rewrite Hin, set_remove_iff by exact Hm.
      simpl. split.
      * intros [[Hx Hne] Hno]. split; [exact Hx |].
        intros [E | Ho]; [now apply Hne | now apply Hno].
      * intros [Hx Hno]. split; [split; [exact Hx |] |].
        -- intros ->. apply Hno. now left.
        -- intros Ho. apply Hno. now right.
    + rewrite Herr. destruct err as [e |]; [now destruct (Close ln) |].
      destruct (Close ln) as [e |] eqn:E; simpl; rewrite ?E; reflexivity.
Qed.

(** X7.  [Shutdown] closes every tracked listener exactly once, in the
    order the [range] visits them (each key once), and leaves none
    tracked, whether the closes succeed or not.  It returns nil when every close succeeds and
    otherwise the error of the first close that failed; the later closes
    still take place.  On the nil map it does nothing and returns nil. *)
Theorem Shutdown_closes_all (Close : ListenerId -> error)
    (order : list ListenerId) (l : NetListener NSt) :
  NoDup (tracked l) ->
  NoDup order ->
  (forall x, In x order <-> In x (tracked l)) ->
  let '(l', err, closed) := Shutdown Close order l in
  tracked l' = []
  /\ closed = order
  /\ (err = None <-> forall x, In x (tracked l) -> Close x = None)
  /\ (forall e, err = Some e ->
        exists pre ln post,
          order = pre ++ ln :: post
          /\ Close ln = Some e
          /\ Forall (fun x => Close x = None) pre)
  /\ Trace l' = Trace l.
Proof.
  intros Hnd _ Hord. unfold Shutdown, closeNetListenersLocked, tracked in *.
  destruct (listeners l) as [m |] eqn:Hl.
  - pose proof (close_each_spec Close order m None [] Hnd) as Hspec.
    destruct (close_each Close order m None []) as [[m' err] closed].
    destruct Hspec as (Hcl & Hnd' & Hin & Herr).
    cbn [set_listeners listeners Trace]. simpl in Hcl.
    set (failing := fun x => match Close x with
                             | Some _ => true
                             | None => false
                             end) in *.
    split; [| split; [exact Hcl | split; [| split; [| reflexivity]]]].
    + destruct m' as [| x m']; [reflexivity |].
      exfalso. destruct (Hin x) as [Hx _].
      destruct (Hx (or_introl eq_refl)) as [Hxm Hno].
      apply Hno, Hord, Hxm.
    + rewrite Herr. split.
      * intros Hnone x Hx. apply Hord in Hx.
        destruct (find failing order) as [y |] eqn:Hf.
        -- apply find_some in Hf. destruct Hf as [_ Hy].
           unfold failing in Hy. rewrite Hnone in Hy. discriminate.
        -- pose proof (find_none _ _ Hf x Hx) as Hx'.
           unfold failing in Hx'. now destruct (Close x).
      * intros Hall. destruct (find failing order) as [y |] eqn:Hf;
          [| reflexivity].
        apply find_some in Hf. destruct Hf as [Hy _].
        apply Hall, Hord, Hy.
    + intros e He. rewrite Herr in He. clear Herr Hin Hcl Hord.
      induction order as [| x order IH]; simpl in He; [discriminate |].
      destruct (failing x) eqn:Hx.
      * exists [], x, order. repeat split; [exact He | constructor].
      * destruct (IH He) as (pre & ln & post & -> & Hc & Hpre).
        exists (x :: pre), ln, post. repeat split; [exact Hc |].
        constructor; [| exact Hpre].
        unfold failing in Hx. now destruct (Close x).
  - rewrite ?Hl.
    assert (Ho : order = []).
    { destruct order as [| x order]; [reflexivity |].
      exfalso. apply (Hord x). now left. }
    split; [reflexivity | split; [now rewrite Ho | split; [| split]]].
    + split; [intros _ x [] | reflexivity].
    + discriminate.
    + reflexivity.
Qed.

Context {C : Type}.

Lemma Serve_body_Serve_loop (l : NetListener NSt)
    (accepts : list (accepted C)) (d : Duration) :
  let '(acts, logs, r) := Serve_body l accepts d in
  Serve_loop accepts d
  = (match r with Some _ => acts ++ [CloseListener] | None => acts end, r)
  /\ match Trace l with
     | None => logs = []
     | Some tr =>
         logged_delays logs = sleeps acts
         /\ Forall (fun line => fst (fst line) = tr) logs
     end.
Proof.
  revert d. induction accepts as [| [rwc | e] accepts IH]; intros d; simpl.
  - split; [reflexivity |]. destruct (Trace l); [split; constructor | reflexivity].
  - specialize (IH 0).
    destruct (Serve_body l accepts 0) as [[acts logs] r].
    destruct IH as [-> Hlogs]. split; [now destruct r |].
    exact Hlogs.
  - destruct (temporary e).
    + specialize (IH (next_delay d)).
      destruct (Serve_body l accepts (next_delay d)) as [[acts logs] r].
      destruct IH as [-> Hlogs]. split; [now destruct r |].
      unfold logf. destruct (Trace l) as [tr |]; simpl.
      * destruct Hlogs as [Hd Htr]. split; [now rewrite Hd |].
        now constructor.
      * exact Hlogs.
    + split; [reflexivity |].
      destruct (Trace l); [split; constructor | reflexivity].
Qed.

Lemma Shutdown_spec (Close : ListenerId -> error) (order : list ListenerId)
    (l : NetListener NSt) :
  NoDup (tracked l) ->
  (forall x, In x order <-> In x (tracked l)) ->
  tracked (fst (fst (Shutdown Close order l))) = []
  /\ snd (Shutdown Close order l) = order.
Proof.
  intros Hnd Hord. unfold Shutdown, closeNetListenersLocked, tracked in *.
  destruct (listeners l) as [m |] eqn:Hl.
  - pose proof (close_each_spec Close order m None [] Hnd) as Hspec.
    destruct (close_each Close order m None []) as [[m' err] closed].
    destruct Hspec as (Hcl & _ & Hin & _).
    cbn [fst snd set_listeners listeners]. split; [| exact Hcl].
    destruct m' as [| x m']; [reflexivity |].
    exfalso. destruct (Hin x) as [Hx _].
    destruct (Hx (or_introl eq_refl)) as [Hxm Hno].
    apply Hno, Hord, Hxm.
  - cbn [fst snd]. rewrite Hl. split; [reflexivity |].
    destruct order as [| x order]; [reflexivity |].
    exfalso. apply (Hord x). now left.
Qed.

Lemma count_occ_NoDup (xs : list nat) (x : nat) :
  NoDup xs ->
  count_occ Nat.eq_dec xs x = if in_dec Nat.eq_dec x xs then 1%nat else 0%nat.
Proof.
  intros Hnd. destruct (in_dec Nat.eq_dec x xs) as [Hin | Hno].
  - now apply (NoDup_count_occ' Nat.eq_dec).
  - now apply (count_occ_not_In Nat.eq_dec).
Qed.

(** X8.  [Serve] and [Shutdown] both close the listener.  [Serve] tracks
    [ln] and its deferred calls untrack and close it when it returns,
    whenever that is.  When [Shutdown] runs in between, while [Serve] waits
    in [Accept], it closes [ln] with the other listeners and empties the
    map; the deferred calls then find nothing to untrack and close [ln] a
    second time.  When [Serve] returns first, [ln] is closed once and a
    later [Shutdown] closes the other listeners only.  Either way every
    other tracked listener is closed once and none is tracked at the
    end. *)
Theorem Shutdown_and_Serve_both_close (Close : ListenerId -> error)
    (l : NetListener NSt) (ln : ListenerId) (order order' : list ListenerId) :
  NoDup (tracked l) ->
  NoDup order ->
  (forall x, In x order <-> In x (tracked (trackNetListener l ln true))) ->
  NoDup order' ->
  (forall x, In x order' <-> In x (tracked l) /\ x <> ln) ->
  (let '(l2, _, closed) := Shutdown Close order (trackNetListener l ln true) in
   let '(l3, closed') := Serve_return l2 ln in
   tracked l2 = [] /\ tracked l3 = []
   /\ count_occ Nat.eq_dec (closed ++ closed') ln = 2%nat
   /\ (forall x, x <> ln ->
         count_occ Nat.eq_dec (closed ++ closed') x
         = if in_dec Nat.eq_dec x (tracked l) then 1%nat else 0%nat))
  /\ (let '(l2, closed) := Serve_return (trackNetListener l ln true) ln in
      let '(l3, _, closed') := Shutdown Close order' l2 in
      ~ In ln (tracked l2)
      /\ (forall x, x <> ln -> (In x (tracked l2) <-> In x (tracked l)))
      /\ tracked l3 = []
      /\ count_occ Nat.eq_dec (closed ++ closed') ln = 1%nat
      /\ (forall x, x <> ln ->
            count_occ Nat.eq_dec (closed ++ closed') x
            = if in_dec Nat.eq_dec x (tracked l) then 1%nat else 0%nat)).
Proof.
  intros Hnd Hno Hord Hno' Hord'.
  destruct (track_spec l ln true Hnd) as (Hnd1 & Hin1 & Hoth1).
  destruct (track_spec (trackNetListener l ln true) ln false Hnd1)
    as (Hnd2 & Hin2 & Hoth2).
  split.
  - pose proof (Shutdown_spec Close order _ Hnd1 Hord) as [Ht2 Hcl].
    destruct (Shutdown Close order (trackNetListener l ln true))
      as [[l2 err] closed].
    cbn [fst snd] in Ht2, Hcl. subst closed. unfold Serve_return.
    assert (Hnd3 : NoDup (tracked l2)) by (rewrite Ht2; constructor).
    destruct (track_spec l2 ln false Hnd3) as (_ & Hin3 & Hoth3).
    split; [exact Ht2 |]. split; [| split].
    + assert (Hall : forall x,
                 ~ In x (tracked (trackNetListener l2 ln false))).
      { intros x Hx. destruct (Nat.eq_dec x ln) as [-> | Hne].
        - apply Hin3 in Hx. discriminate.
        - apply (Hoth3 x Hne) in Hx. rewrite Ht2 in Hx. exact Hx. }
      destruct (tracked (trackNetListener l2 ln false)) as [| x xs];
        [reflexivity |].
      exfalso. apply (Hall x). now left.
    + unfold ListenerId in *.
      rewrite count_occ_app, (count_occ_NoDup order ln Hno).
      destruct (in_dec Nat.eq_dec ln order) as [_ | Hout].
      * simpl. now destruct (Nat.eq_dec ln ln).
      * exfalso. apply Hout, Hord, Hin1. reflexivity.
    + intros x Hne. unfold ListenerId in *.
      rewrite count_occ_app, (count_occ_NoDup order x Hno).
      simpl. destruct (Nat.eq_dec ln x) as [E | _]; [now elim Hne |].
      rewrite Nat.add_0_r.
      destruct (in_dec Nat.eq_dec x order) as [Hi | Hi];
        destruct (in_dec Nat.eq_dec x (tracked l)) as [Hj | Hj];
        try reflexivity; exfalso.
      * apply Hj, (Hoth1 x Hne), Hord, Hi.
      * apply Hi, Hord, (Hoth1 x Hne), Hj.
  - unfold Serve_return.
    assert (Hord2 : forall x,
               In x order'
               <-> In x (tracked (trackNetListener
                                    (trackNetListener l ln true) ln false))).
    { intros x. rewrite Hord'. split.
      - intros [Hx Hne]. now apply (Hoth2 x Hne), (Hoth1 x Hne).
      - intros Hx. destruct (Nat.eq_dec x ln) as [-> | Hne].
        + apply Hin2 in Hx. discriminate.
        + split; [| exact Hne]. now apply (Hoth1 x Hne), (Hoth2 x Hne). }
    pose proof (Shutdown_spec Close order' _ Hnd2 Hord2) as [Ht3 Hcl].
    destruct (Shutdown Close order'
                (trackNetListener (trackNetListener l ln true) ln false))
      as [[l3 err] closed'].
    cbn [fst snd] in Ht3, Hcl. subst closed'.
    split; [| split; [| split; [exact Ht3 | split]]].
    + intros Hx. apply Hin2 in Hx. discriminate.
    + intros x Hne. rewrite (Hoth2 x Hne). now apply Hoth1.
    + unfold ListenerId in *.
      simpl. destruct (Nat.eq_dec ln ln) as [_ | Hne]; [| now elim Hne].
      rewrite (count_occ_NoDup order' ln Hno').
      destruct (in_dec Nat.eq_dec ln order') as [Hi | _]; [| reflexivity].
      exfalso. apply Hord' in Hi. now destruct Hi as [_ Hne].
    + intros x Hne. unfold ListenerId in *. simpl.
      destruct (Nat.eq_dec ln x) as [E | _]; [now elim Hne |].
      rewrite (count_occ_NoDup order' x Hno').
      destruct (in_dec Nat.eq_dec x order') as [Hi | Hi];
        destruct (in_dec Nat.eq_dec x (tracked l)) as [Hj | Hj];
        try reflexivity; exfalso.
      * apply Hj. now apply Hord' in Hi.
      * apply Hi, Hord'. now split.
Qed.

(** X9.  [Serve] logs a retry through [l.logf] exactly when [Trace] is
    set: then there is one line per sleep, sent to the function in [Trace]
    and announcing the delay that is slept next; with [Trace] nil nothing
    is logged, and the loop does the same sleeps. *)
Theorem Serve_logs_each_retry (l : NetListener NSt) (ln : ListenerId)
    (accepts : list (accepted C)) :
  let '(l', acts, logs, r) := Serve_tracked l ln accepts in
  (acts, r) = Serve accepts
  /\ match Trace l with
     | None => logs = []
     | Some tr =>
         logged_delays logs = sleeps acts
         /\ Forall (fun line => fst (fst line) = tr) logs
     end.
Proof.
  unfold Serve_tracked, Serve.
  pose proof (Serve_body_Serve_loop (trackNetListener l ln true) accepts 0)
    as Hbody.
  destruct (Serve_body (trackNetListener l ln true) accepts 0)
    as [[acts logs] r].
  destruct Hbody as [Hloop Hlogs].
  assert (Htr : Trace (trackNetListener l ln true) = Trace l)
    by (unfold trackNetListener; reflexivity).
  rewrite Htr in Hlogs.
  assert (Hsl : sleeps (acts ++ [CloseListener]) = sleeps acts).
  { unfold sleeps. rewrite flat_map_app. simpl. apply app_nil_r. }
  destruct r as [e |].
  - split; [now rewrite Hloop |].
    destruct (Trace l); [| exact Hlogs]. now rewrite Hsl.
  - split; [now rewrite Hloop |]. exact Hlogs.
Qed.

Lemma apply_opts_app (l : NetListener NSt)
    (pre post : list (NetListenerOpt NSt)) :
  apply_opts l (pre ++ post)
  = match apply_opts l pre with
    | inl l1 => apply_opts l1 post
    | inr e => inr e
    end.
Proof.
  revert l. induction pre as [| o pre IH]; intros l; simpl; [reflexivity |].
  destruct (o l) as [l' [e |]]; [reflexivity | apply IH].
Qed.

(** X10.  [NewNetListener] applies its options in order to a listener that
    starts with no address, no [Trace] and the nil map, and stops at the
    first option that returns an error: it then returns that error, and
    the options after it are not run.  Options compose: running [pre] and
    then [post] is running [post] on what [pre] built. *)
Theorem NewNetListener_options (registered : bool) (ns : unit -> NSt)
    (pre post : list (NetListenerOpt NSt)) :
  NewNetListener registered ns []
  = inl (mkNetListener ns EmptyString None None
           (if registered then GlobalTracer else NoopTracer))
  /\ (forall l1, NewNetListener registered ns pre = inl l1 ->
        NewNetListener registered ns (pre ++ post) = apply_opts l1 post)
  /\ (forall e, NewNetListener registered ns pre = inr e ->
        NewNetListener registered ns (pre ++ post) = inr e)
  /\ (forall l1 o l2 e,
        NewNetListener registered ns pre = inl l1 ->
        o l1 = (l2, Some e) ->
        NewNetListener registered ns (pre ++ o :: post) = inr e).
Proof.
  unfold NewNetListener.
  set (l0 := mkNetListener ns EmptyString None None
               (if registered then GlobalTracer else NoopTracer)).
  split; [reflexivity | split; [| split]].
  - intros l1 H1. now rewrite apply_opts_app, H1.
  - intros e H1. now rewrite apply_opts_app, H1.
  - intros l1 o l2 e H1 Ho. rewrite apply_opts_app, H1. simpl. now rewrite Ho.
Qed.

(** X11.  The listener that ufs and centre build, with their option last
    among the options: whatever the options before it did to [Trace], the
    listener logs through [log.Printf] when the debug level is above 1 and
    logs nothing otherwise. *)
Theorem trace_option_decides_logging (registered : bool) (ns : unit -> NSt)
    (pre : list (NetListenerOpt NSt)) (debug : Z) (l : NetListener NSt) :
  NewNetListener registered ns (pre ++ [trace_opt debug]) = inl l ->
  (debug <= 1 -> forall format args, logf l format args = [])
  /\ (1 < debug ->
      forall format args, logf l format args = [(LogPrintf, format, args)]).
Proof.
  unfold NewNetListener. rewrite apply_opts_app.
  destruct (apply_opts _ pre) as [l1 | e]; [| discriminate].
  simpl. intros [= <-]. unfold logf.
  split; intros Hd format args.
  - destruct (Z.gtb_spec debug 1); [lia | reflexivity].
  - destruct (Z.gtb_spec debug 1); [reflexivity | lia].
Qed.

End WithBackend.

(** Listeners 1 and 2 tracked; the close of 2 fails. *)
Lemma trackNetListener_tracks_example :
  let l := mkNetListener (fun _ : unit => 0) EmptyString None (Some [1; 2]%nat)
             NoopTracer in
  let l' := trackNetListener l 3%nat true in
  listeners l' <> None
  /\ NoDup (tracked l')
  /\ (In 3%nat (tracked l') <-> true = true)
  /\ (forall ln', ln' <> 3%nat -> (In ln' (tracked l') <-> In ln' (tracked l)))
  /\ Trace l' = Trace l.
Proof.
  intros l.
  apply (trackNetListener_tracks l 3%nat true).
  repeat constructor; simpl; intuition discriminate.
Defined.

Lemma Shutdown_closes_all_example :
  let l := mkNetListener (fun _ : unit => 0) EmptyString None (Some [1; 2]%nat)
             NoopTracer in
  let Close := fun ln : ListenerId =>
                 if Nat.eqb ln 2 then Some "close: bad descriptor"%string
                 else None in
  let '(l', err, closed) := Shutdown Close [2; 1]%nat l in
  tracked l' = []
  /\ closed = [2; 1]%nat
  /\ (err = None <-> forall x, In x (tracked l) -> Close x = None)
  /\ (forall e, err = Some e ->
        exists pre ln post,
          [2; 1]%nat = pre ++ ln :: post
          /\ Close ln = Some e
          /\ Forall (fun x => Close x = None) pre)
  /\ Trace l' = Trace l.
Proof.
  intros l Close.
  apply (Shutdown_closes_all Close [2; 1]%nat l).
  - repeat constructor; simpl; intuition discriminate.
  - repeat constructor; simpl; intuition discriminate.
  - intros x. simpl. tauto.
Defined.

(** Listener 1 is tracked when [Serve] starts on listener 2. *)
Lemma Shutdown_and_Serve_both_close_example :
  let l := mkNetListener (fun _ : unit => 0) EmptyString None (Some [1]%nat)
             NoopTracer in
  let Close := fun _ : ListenerId => @None string in
  (let '(l2, _, closed) :=
     Shutdown Close [2; 1]%nat (trackNetListener l 2%nat true) in
   let '(l3, closed') := Serve_return l2 2%nat in
   tracked l2 = [] /\ tracked l3 = []
   /\ count_occ Nat.eq_dec (closed ++ closed') 2%nat = 2%nat
   /\ (forall x, x <> 2%nat ->
         count_occ Nat.eq_dec (closed ++ closed') x
         = if in_dec Nat.eq_dec x (tracked l) then 1%nat else 0%nat))
  /\ (let '(l2, closed) := Serve_return (trackNetListener l 2%nat true) 2%nat in
      let '(l3, _, closed') := Shutdown Close [1]%nat l2 in
      ~ In 2%nat (tracked l2)
      /\ (forall x, x <> 2%nat -> (In x (tracked l2) <-> In x (tracked l)))
      /\ tracked l3 = []
      /\ count_occ Nat.eq_dec (closed ++ closed') 2%nat = 1%nat
      /\ (forall x, x <> 2%nat ->
            count_occ Nat.eq_dec (closed ++ closed') x
            = if in_dec Nat.eq_dec x (tracked l) then 1%nat else 0%nat)).
Proof.
  intros l Close.
  apply (Shutdown_and_Serve_both_close Close l 2%nat [2; 1]%nat [1]%nat).
  - repeat constructor; simpl; intuition discriminate.
  - repeat constructor; simpl; intuition discriminate.
  - intros x. vm_compute. tauto.
  - repeat constructor; simpl; intuition discriminate.
  - intros x. simpl. split.
    + intros [<- | []]. split; [now left | discriminate].
    + intros [H _]. exact H.
Defined.

Lemma trace_option_decides_logging_example :
  let l := mkNetListener (fun _ : unit => 0) EmptyString None None NoopTracer in
  (0 <= 1 -> forall format args, logf l format args = [])
  /\ (1 < 0 ->
      forall format args, logf l format args = [(LogPrintf, format, args)]).
Proof.
  intros l.
  exact (trace_option_decides_logging false (fun _ : unit => 0)
           [fun l0 => (set_Trace l0 (Some (TraceFn "t")), None)] 0 l eq_refl).
Defined.

End Managing.

(* ------------------------------------------------------------------ *)
(** ** centre: looking a name up in the hosts file *)

Module CentreFacts.

Import Centre.

Section LookupIP.

Context {env : Env}.

Lemma match_fields_none (addr : string) (flds hostnames : list string) :
  Forall (other_name addr) flds ->
  match_fields addr flds hostnames = None.
Proof.
  intros Hall. revert hostnames.
  induction Hall as [| fld flds Hf _ IH]; intros hostnames; simpl;
    [reflexivity |].
  unfold other_name in Hf. rewrite Hf. apply IH.
Qed.

Lemma match_fields_found (addr m : string) (pre post hostnames : list string) :
  Forall (other_name addr) pre ->
  String.eqb (ToLower m) (ToLower addr) = true ->
  match_fields addr (pre ++ m :: post) hostnames = Some (hostnames ++ pre).
Proof.
  intros Hall Hm. revert hostnames.
  induction Hall as [| fld pre Hf _ IH]; intros hostnames; simpl.
  - rewrite Hm. now rewrite app_nil_r.
  - unfold other_name in Hf. rewrite Hf, IH, <- app_assoc. reflexivity.
Qed.

Lemma scan_lines_passed_over (addr : string) (before after : list string) :
  Forall (passed_over addr) before ->
  scan_lines addr (before ++ after) = scan_lines addr after.
Proof.
  induction 1 as [| line before Hp _ IH]; cbn [app scan_lines];
    [reflexivity |].
  unfold passed_over in Hp.
  destruct (Fields line) as [| f0 [| f1 fs]]; try exact IH.
  destruct (String.prefix "#" f0) eqn:Hc; [exact IH |].
  destruct Hp as [Hp | Hp]; [discriminate |].
  now rewrite (match_fields_none addr (f1 :: fs) [] Hp).
Qed.

(** X12.  The hosts file overrides the resolver, and its first matching
    line decides.  When the lines before it are passed over (fewer than two
    fields, a leading "#", or no field equal to the name up to case), a
    line whose first field is not a comment and that names the address in
    a later field gives the answer: the IP parsed from the first field,
    which is nil when it does not parse, no error, and as hostnames only
    the fields between the IP and the match.  Neither the lines after it
    nor the resolver is consulted. *)
Theorem lookupIP_first_matching_line (hostFile addr line f0 m : string)
    (before after pre post : list string) :
  hostFile <> EmptyString ->
  Open hostFile = inl (before ++ line :: after) ->
  Forall (passed_over addr) before ->
  Fields line = f0 :: pre ++ m :: post ->
  String.prefix "#" f0 = false ->
  Forall (other_name addr) pre ->
  String.eqb (ToLower m) (ToLower addr) = true ->
  lookupIP hostFile addr = (ParseIP f0, pre, None).
Proof.
  intros Hne Hopen Hbefore Hf Hc Hpre Hm.
  unfold lookupIP.
  apply String.eqb_neq in Hne. rewrite Hne, Hopen.
  rewrite (scan_lines_passed_over addr before (line :: after) Hbefore).
  cbn [scan_lines]. rewrite Hf.
  assert (Hfound : match_fields addr (pre ++ m :: post) [] = Some pre)
    by apply (match_fields_found addr m pre post [] Hpre Hm).
  destruct pre as [| p pre]; cbn [app] in *; rewrite Hc, Hfound; reflexivity.
Qed.

(** X13.  Without a hosts file, or when every line of it is passed over,
    [lookupIP] answers as the resolver does: the error of [net.LookupIP];
    the error "No IP found" when it returns no address; otherwise its
    first address with the names and the error of [net.LookupAddr].  A
    hosts file that cannot be opened is an error at once, and the resolver
    is not asked. *)
Theorem lookupIP_falls_back_to_resolver (hostFile addr : string) :
  (hostFile = EmptyString
   \/ (exists lines, Open hostFile = inl lines
                     /\ Forall (passed_over addr) lines) ->
   lookupIP hostFile addr
   = match LookupIP addr with
     | inr err => (None, [], Some err)
     | inl [] => (None, [], Some "No IP found"%string)
     | inl (ip :: _) =>
         (Some ip, fst (LookupAddr (IP_String ip)),
          snd (LookupAddr (IP_String ip)))
     end)
  /\ (forall err,
         hostFile <> EmptyString -> Open hostFile = inr err ->
         lookupIP hostFile addr = (None, [], Some err)).
Proof.
  assert (Hres : resolve addr
                 = match LookupIP addr with
                   | inr err => (None, [], Some err)
                   | inl [] => (None, [], Some "No IP found"%string)
                   | inl (ip :: _) =>
                       (Some ip, fst (LookupAddr (IP_String ip)),
                        snd (LookupAddr (IP_String ip)))
                   end).
  { unfold resolve. destruct (LookupIP addr) as [[| ip ips] | err];
      try reflexivity.
    now destruct (LookupAddr (IP_String ip)). }
  split.
  - intros [-> | (lines & Hopen & Hall)]; unfold lookupIP.
    + simpl. exact Hres.
    + destruct (String.eqb hostFile EmptyString); [exact Hres |].
      rewrite Hopen.
      pose proof (scan_lines_passed_over addr lines [] Hall) as Hs.
      rewrite app_nil_r in Hs. rewrite Hs. exact Hres.
  - intros err Hne Hopen. unfold lookupIP.
    apply String.eqb_neq in Hne. now rewrite Hne, Hopen.
Qed.

End LookupIP.

(** The name "centre" is found on the third line, after one alias. *)
Lemma lookupIP_first_matching_line_example :
  lookupIP (env := example_env) "/lib/ndb/hosts" "centre"
  = (Some "10.0.0.1"%string, ["boot"%string], None).
Proof.
  apply (lookupIP_first_matching_line (env := example_env)
           "/lib/ndb/hosts" "centre" "10.0.0.1 boot Centre www"
           "10.0.0.1" "Centre"
           ["# hosts"; "10.0.0.9 fs u00:11"]%string []
           ["boot"%string] ["www"%string]);
    try reflexivity.
  - discriminate.
  - constructor; [vm_compute; left; reflexivity |].
    constructor; [vm_compute; right; repeat constructor | constructor].
  - constructor; [vm_compute; reflexivity | constructor].
Defined.

End CentreFacts.

(* ------------------------------------------------------------------ *)
(** ** The header as bytes, and the body in pieces *)

Module HeaderBytes.

Import Frames.

Lemma byte_of_Z_low (a : byte) (k : Z) : byte_of_Z (u8 a + 256 * k) = a.
Proof.
  assert (Hm : (u8 a + 256 * k) mod 256 = u8 a mod 256).
  { rewrite (Z.mul_comm 256 k). apply Z.mod_add. lia. }
  rewrite <- (byte_of_Z_u8 a) at 2. unfold byte_of_Z. now rewrite Hm.
Qed.

Lemma shiftr8_low (a : byte) (k : Z) : Z.shiftr (u8 a + 256 * k) 8 = k.
Proof.
  rewrite Z.shiftr_div_pow2 by lia. change (2 ^ 8) with 256.
  pose proof (u8_range a).
  rewrite (Z.mul_comm 256 k), Z.div_add by lia.
  rewrite (Z.div_small (u8 a) 256) by lia. lia.
Qed.

Lemma shiftr_16_24 (z : Z) :
  Z.shiftr z 16 = Z.shiftr (Z.shiftr z 8) 8
  /\ Z.shiftr z 24 = Z.shiftr (Z.shiftr (Z.shiftr z 8) 8) 8.
Proof.
  rewrite !Z.shiftr_shiftr by lia. split; reflexivity.
Qed.

(** X14.  The header fields and the little-endian bytes determine each
    other.  What [serve] decodes from four size bytes, or from two tag
    bytes, written least significant byte first is the number written; and
    writing the decoded size, type and tag that way gives back the bytes
    of the header.  So no two headers decode alike, and every size below
    2^32 and every tag below 2^16 has its header. *)
Theorem header_fields_roundtrip :
  (forall sz, 0 <= sz < 2 ^ 32 ->
     match le32 sz with
     | [b0; b1; b2; b3] => header_size b0 b1 b2 b3 = sz
     | _ => False
     end)
  /\ (forall tag, 0 <= tag < 2 ^ 16 ->
        match le16 tag with
        | [b0; b1] => header_tag b0 b1 = tag
        | _ => False
        end)
  /\ (forall l0 l1 l2 l3 : byte,
        le32 (header_size l0 l1 l2 l3) = [l0; l1; l2; l3])
  /\ (forall l5 l6 : byte, le16 (header_tag l5 l6) = [l5; l6])
  /\ (forall l4 : byte, byte_of_Z (header_type l4) = l4).
Proof.
  split; [| split; [| split; [| split]]].
  - intros sz Hsz. cbn [le32].
    rewrite header_size_value. apply le32_read. exact Hsz.
  - intros tag Htag. cbn [le16].
    rewrite header_tag_value. apply le16_read. exact Htag.
  - intros l0 l1 l2 l3. unfold le32.
    destruct (shiftr_16_24 (header_size l0 l1 l2 l3)) as [-> ->].
    rewrite header_size_value.
    replace (u8 l0 + 2 ^ 8 * u8 l1 + 2 ^ 16 * u8 l2 + 2 ^ 24 * u8 l3)
      with (u8 l0 + 256 * (u8 l1 + 256 * (u8 l2 + 256 * (u8 l3 + 256 * 0))))
      by lia.
    rewrite !shiftr8_low, !byte_of_Z_low. reflexivity.
  - intros l5 l6. unfold le16. rewrite header_tag_value.
    replace (u8 l5 + 256 * u8 l6)
      with (u8 l5 + 256 * (u8 l6 + 256 * 0)) by lia.
    rewrite shiftr8_low, !byte_of_Z_low. reflexivity.
  - intros l4. apply byte_of_Z_u8.
Qed.

Section WithHandlers.

Context {NSt : Type} {h : Handlers NSt}.

(** X15.  Only the header has to come in one piece.  Two connections in
    the same state whose streams deliver the same seven header bytes at
    once and then hold the same bytes, cut into pieces in any two ways,
    take the same turn when the body is all there: the same request is
    dispatched, the same reply written, and the same bytes are left to
    read. *)
Theorem body_pieces_do_not_matter (c c' : conn NSt)
    (l0 l1 l2 l3 l4 l5 l6 : byte) (rd1 rd1' : reader) :
  c' = with_Reader c (Reader c') ->
  Read (Reader c) 7 = ([l0; l1; l2; l3; l4; l5; l6], None, rd1) ->
  Read (Reader c') 7 = ([l0; l1; l2; l3; l4; l5; l6], None, rd1') ->
  available rd1 = available rd1' ->
  7 <= header_size l0 l1 l2 l3 ->
  header_size l0 l1 l2 l3 - 7 <= Z.of_nat (List.length (available rd1)) ->
  same_turn (serve_iter c) (serve_iter c')
  /\ exists c1, serve_iter c = Continue c1 \/ serve_iter c = Stop ReplyWrite c1.
Proof.
  intros Hc' Hr Hr' Hav H7 Hlen.
  set (n := header_size l0 l1 l2 l3 - 7) in *.
  destruct (Framing.CopyLimit_enough rd1 n) as (rd2 & Hc & Ha); [lia |].
  destruct (Framing.CopyLimit_enough rd1' n) as (rd2' & Hcp & Ha');
    [rewrite <- Hav; lia |].
  rewrite <- Hav in Hcp, Ha'.
  set (body := firstn (Z.to_nat n) (available rd1)) in *.
  destruct (Dispatch (server c) ([l5; l6] ++ body) (header_type l4))
    as [s' b' derr |] eqn:Hd;
    [| exfalso; exact (Dispatch_tagged_no_panic _ _ _ _ _ Hd)].
  destruct (Write (Writer c) b') as [w' werr] eqn:Hw.
  pose proof (serve_iter_turn c l0 l1 l2 l3 l4 l5 l6 rd1 rd2 body
                s' b' derr w' werr Hr Hc Hd Hw) as Ht.
  assert (Hd' : Dispatch (server c') ([l5; l6] ++ body) (header_type l4)
                = Ret s' b' derr) by (rewrite Hc'; exact Hd).
  assert (Hw' : Write (Writer c') b' = (w', werr)) by (rewrite Hc'; exact Hw).
  pose proof (serve_iter_turn c' l0 l1 l2 l3 l4 l5 l6 rd1' rd2' body
                s' b' derr w' werr Hr' Hcp Hd' Hw') as Ht'.
  cbv zeta in Ht, Ht'. rewrite Ht, Ht'.
  assert (Hfields : closed c' = closed c /\ dead c' = dead c
                    /\ requestCounter c' = requestCounter c
                    /\ spans c' = spans c)
    by (rewrite Hc'; now repeat split).
  destruct Hfields as (-> & -> & -> & ->).
  destruct werr as [e |]; simpl.
  - split; [| eexists; right; reflexivity].
    unfold with_Reader, die. simpl.
    repeat split. now rewrite Ha, Ha'.
  - split; [| eexists; left; reflexivity].
    unfold with_Reader. simpl. split; [reflexivity |]. now rewrite Ha, Ha'.
Qed.

End WithHandlers.

(** The Tattach of scenario 2 on a versioned session, its body delivered
    in one piece and in three. *)
Lemma body_pieces_do_not_matter_example :
  let body := skipn 7 Tattach_frame in
  let c := versioned 8192 Tattach_frame in
  let c' := with_Reader c
              [Data (firstn 7 Tattach_frame); Data (firstn 4 body);
               Data []; Data (skipn 4 body)] in
  same_turn (serve_iter (h := Fixture.handlers) c)
            (serve_iter (h := Fixture.handlers) c')
  /\ exists c1,
      serve_iter (h := Fixture.handlers) c = Continue c1
      \/ serve_iter (h := Fixture.handlers) c = Stop ReplyWrite c1.
Proof.
  intros body c c'.
  apply (body_pieces_do_not_matter (h := Fixture.handlers) c c'
           Byte.x14 Byte.x00 Byte.x00 Byte.x00 Byte.x68 Byte.x01 Byte.x00
           [Data body]
           [Data (firstn 4 body); Data []; Data (skipn 4 body)]);
    try reflexivity; vm_compute; discriminate.
Defined.

End HeaderBytes.
